(** * tilecsp: a table-constraint CSP kernel (src/tilecsp/cspbase.py)

    Shallow embedding of the classes [Variable], [Constraint] and [CSP] of
    cspbase.py, and the properties of the natural-language specification
    that concern them.  The backtracking search that the module's docstring
    announces is not in the source, and is not part of this development.

    Conventions of the embedding.
    - Python objects compared by identity ([Variable] and [Constraint]
      instances define neither [__eq__] nor [__hash__]) are references
      ([var_ref], [cons_ref]); their mutable state lives in a store that the
      operations reading it take as an argument.
    - Domain values are any Python values with [==] and [hash], other than
      [None], which the class reserves as the "unassigned" marker
      ([get_assigned_value]: "returns None if is unassigned").  They form
      the type [V].
    - A method is a function from the receiver's state to an [effect]: the
      state afterwards, the lines printed, and either the returned value or
      the exception raised.  A raised exception keeps the mutations made
      before it, as in Python. *)

From stdpp Require Import functions gmap list strings.

Set Warnings "-clear-no-such-hyp".

(** ** Exceptions, printed lines, effects *)

Inductive exn : Type :=
| IndexError   (* list index out of range *)
| ValueError   (* list.index(x): x not in list *)
| KeyError.    (* dict[k]: k not a key *)

Inductive outcome (A : Type) : Type :=
| Returned (a : A)
| Raised (e : exn).
Arguments Returned {A} a.
Arguments Raised {A} e.

#[global] Instance outcome_ret : MRet outcome := fun A a => Returned a.
#[global] Instance outcome_bind : MBind outcome := fun A B k m =>
  match m with
  | Returned a => k a
  | Raised e => Raised e
  end.

(** The lines the three classes print.  Each one stands for the text of the
    [print] call named in its comment (the object printed with it is left
    out). *)
Inductive message : Type :=
| AssignError        (* "ERROR: trying to assign variable ... that is already
                         assigned or illegal value (not in curdom)" *)
| UnassignError      (* "ERROR: trying to unassign variable ... not yet assigned" *)
| NonVariable        (* "Trying to add non variable ... to CSP object" *)
| AlreadyHasVariable (* "Trying to add variable ... to CSP object that already has it" *)
| NonConstraint      (* "Trying to add non constraint ... to CSP object" *)
| UnknownVariables.  (* "Trying to add constraint ... with unknown variables to CSP object" *)

Record effect (S A : Type) : Type := Effect {
  post : S;                (* the receiver afterwards *)
  out : list message;      (* what was printed *)
  ret : outcome A          (* the value returned, or the exception *)
}.
Arguments Effect {S A} post out ret.
Arguments post {S A} e.
Arguments out {S A} e.
Arguments ret {S A} e.

Definition done_with {S} (s : S) : effect S unit := Effect s [] (Returned tt).
Definition complain {S} (s : S) (m : message) : effect S unit :=
  Effect s [m] (Returned tt).
Definition throw {S} (s : S) (e : exn) : effect S unit := Effect s [] (Raised e).

(** [l[i]] and [l[i] = x] on a Python list, for an index that is not
    negative. *)
Definition list_get {A} (l : list A) (i : nat) : outcome A :=
  match l !! i with
  | Some x => Returned x
  | None => Raised IndexError
  end.

Definition list_set {A} (l : list A) (i : nat) (x : A) : outcome (list A) :=
  if decide (i < length l) then Returned (<[i:=x]> l) else Raised IndexError.

(** [l.index(x)]: the position of the first element equal to [x]. *)
Fixpoint list_index {A} `{EqDecision A} (x : A) (l : list A) : option nat :=
  match l with
  | [] => None
  | y :: l' => if decide (y = x) then Some 0 else S <$> list_index x l'
  end.

(** Object identities. *)
Definition var_ref := nat.
Definition cons_ref := nat.

(** The error kinds of the specification, and how cspbase.py signals each
    one: by a printed line followed by a plain return, or by the exception
    of the failing list operation.  The code has no check of a tuple's
    length; the only failure a wrong length can cause while tuples are added
    is the [IndexError] of [self.scope[i]]. *)
Inductive error_kind : Type :=
| InvalidAssignment
| InvalidUnassignment
| ValueNotInDomain
| DuplicateVariable
| UnknownVariableInScope
| ScopeArityMismatch.

Inductive signal : Type :=
| Printed (m : message)
| Thrown (e : exn).

Definition signal_of (k : error_kind) : signal :=
  match k with
  | InvalidAssignment => Printed AssignError
  | InvalidUnassignment => Printed UnassignError
  | ValueNotInDomain => Thrown ValueError
  | DuplicateVariable => Printed AlreadyHasVariable
  | UnknownVariableInScope => Printed UnknownVariables
  | ScopeArityMismatch => Thrown IndexError
  end.

Definition fails_with {S A} (r : effect S A) (k : error_kind) : Prop :=
  match signal_of k with
  | Printed m => out r = [m]
  | Thrown e => ret r = Raised e
  end.

(** ** class Variable *)

Section VariableClass.
Context {V : Type} `{EqDecision V}.

Record Var : Type := MkVar {
  name : string;
  dom : list V;                (* self.dom *)
  curdom : list bool;          (* self.curdom *)
  assignedValue : option V     (* self.assignedValue; None is Python's None *)
}.

Definition set_dom (d : list V) (s : Var) : Var :=
  MkVar (name s) d (curdom s) (assignedValue s).
Definition set_curdom (m : list bool) (s : Var) : Var :=
  MkVar (name s) (dom s) m (assignedValue s).
Definition set_assignedValue (a : option V) (s : Var) : Var :=
  MkVar (name s) (dom s) (curdom s) a.

(** [__init__(self, name, domain=[])] *)
Definition Variable_init (nm : string) (domain : list V) : Var :=
  MkVar nm domain (replicate (length domain) true) None.

Definition add_domain_values (s : Var) (values : list V) : Var :=
  foldl (fun s val => set_curdom (curdom s ++ [true]) (set_dom (dom s ++ [val]) s))
        s values.

Definition domain_size (s : Var) : nat := length (dom s).
Definition domain (s : Var) : list V := dom s.

Definition value_index (s : Var) (value : V) : outcome nat :=
  match list_index value (dom s) with
  | Some i => Returned i
  | None => Raised ValueError
  end.

(** [self.curdom[self.value_index(value)] = b] *)
Definition store_flag (s : Var) (value : V) (b : bool) : effect Var unit :=
  match value_index s value with
  | Raised e => throw s e
  | Returned i =>
      match list_set (curdom s) i b with
      | Raised e => throw s e
      | Returned m => done_with (set_curdom m s)
      end
  end.

Definition prune_value (s : Var) (value : V) : effect Var unit :=
  store_flag s value false.
Definition unprune_value (s : Var) (value : V) : effect Var unit :=
  store_flag s value true.

Definition is_assigned (s : Var) : bool :=
  match assignedValue s with
  | Some _ => true
  | None => false
  end.

Definition get_assigned_value (s : Var) : option V := assignedValue s.

(** The loop [for i, val in enumerate(self.dom): if self.curdom[i]: ...]
    from position [i] on. *)
Fixpoint cur_domain_scan (i : nat) (d : list V) (m : list bool) : outcome (list V) :=
  match d with
  | [] => Returned []
  | val :: d' =>
      b ← list_get m i;
      vals ← cur_domain_scan (S i) d' m;
      Returned (if b : bool then val :: vals else vals)
  end.

Definition cur_domain (s : Var) : outcome (list V) :=
  match get_assigned_value s with
  | Some a => Returned [a]
  | None => cur_domain_scan 0 (dom s) (curdom s)
  end.

(** The domain values whose flag is set, in domain order. *)
Definition flagged (d : list V) (m : list bool) : list V :=
  (filter (fun p => p.2 = true) (zip d m)).*1.

Definition in_cur_domain (s : Var) (value : V) : outcome bool :=
  if decide (value ∈ dom s) then
    match get_assigned_value s with
    | Some a => Returned (bool_decide (value = a))
    | None => i ← value_index s value; list_get (curdom s) i
    end
  else Returned false.

Definition cur_domain_size (s : Var) : nat :=
  if is_assigned s then 1 else length (filter (fun b => b = true) (curdom s)).

Definition restore_curdom (s : Var) : Var :=
  set_curdom (foldl (fun m i => <[i:=true]> m) (curdom s) (seq 0 (length (curdom s)))) s.

Definition assign (s : Var) (value : V) : effect Var unit :=
  if is_assigned s then complain s AssignError
  else match in_cur_domain s value with
       | Raised e => throw s e
       | Returned false => complain s AssignError
       | Returned true => done_with (set_assignedValue (Some value) s)
       end.

Definition unassign (s : Var) : effect Var unit :=
  if is_assigned s then done_with (set_assignedValue None s)
  else complain s UnassignError.

(** The two ways a client can ask whether a value is in the current domain:
    the query [in_cur_domain], and membership in the list [cur_domain()]. *)
Definition by_in_cur_domain (s : Var) (value : V) : Prop :=
  in_cur_domain s value = Returned true.
Definition by_cur_domain (s : Var) (value : V) : Prop :=
  ∃ l, cur_domain s = Returned l ∧ value ∈ l.

(** The calls a client can make on a variable that change it, and the
    states they lead to from a new object. *)
Inductive var_op : Type :=
| OpAddDomainValues (values : list V)
| OpPruneValue (value : V)
| OpUnpruneValue (value : V)
| OpRestoreCurdom
| OpAssign (value : V)
| OpUnassign.

Definition var_step (s : Var) (o : var_op) : Var :=
  match o with
  | OpAddDomainValues values => add_domain_values s values
  | OpPruneValue value => post (prune_value s value)
  | OpUnpruneValue value => post (unprune_value s value)
  | OpRestoreCurdom => restore_curdom s
  | OpAssign value => post (assign s value)
  | OpUnassign => post (unassign s)
  end.

Inductive reachable_var : Var → Prop :=
| reachable_var_init nm domain : reachable_var (Variable_init nm domain)
| reachable_var_step s o : reachable_var s → reachable_var (var_step s o).

(** What every reachable state satisfies: one flag per domain value, and
    an assigned value taken from the domain. *)
Definition var_wf (s : Var) : Prop :=
  length (curdom s) = length (dom s) ∧
  ∀ a, assignedValue s = Some a → a ∈ dom s.
End VariableClass.

Arguments Var V : clear implicits.
Arguments var_op V : clear implicits.

(** The variable objects, by identity: what each one's fields hold now. *)
Abbreviation var_store V := (var_ref → Var V).

(** ** class Constraint *)

Section ConstraintClass.
Context {V : Type} `{Countable V}.

Record Constraint : Type := MkConstraint {
  cons_name : string;
  scope : list var_ref;                                (* self.scope *)
  sat_tuples : gset (list V);                          (* self.sat_tuples, a dict to True *)
  sup_tuples : gmap (var_ref * V) (list (list V))      (* self.sup_tuples *)
}.

(** [__init__(self, name, scope)] *)
Definition Constraint_init (nm : string) (sc : list var_ref) : Constraint :=
  MkConstraint nm sc ∅ ∅.

(** [if not (var,val) in self.sup_tuples: self.sup_tuples[(var,val)] = []]
    then [self.sup_tuples[(var,val)].append(t)] *)
Definition append_support (k : var_ref * V) (t : list V)
    (sup : gmap (var_ref * V) (list (list V))) : gmap (var_ref * V) (list (list V)) :=
  let sup' := if decide (is_Some (sup !! k)) then sup else <[k:=[]]> sup in
  alter (fun l => l ++ [t]) k sup'.

(** The loop [for i, val in enumerate(t): var = self.scope[i]; ...] from
    position [i] on, [vals] being what is left of [t]. *)
Fixpoint index_tuple (sc : list var_ref) (t : list V) (i : nat) (vals : list V)
    (sup : gmap (var_ref * V) (list (list V)))
    : gmap (var_ref * V) (list (list V)) * outcome unit :=
  match vals with
  | [] => (sup, Returned tt)
  | val :: vals' =>
      match list_get sc i with
      | Raised e => (sup, Raised e)
      | Returned var => index_tuple sc t (S i) vals' (append_support (var, val) t sup)
      end
  end.

(** One round of the loop [for x in tuples]. *)
Definition add_satisfying_tuple (c : Constraint) (t : list V) : effect Constraint unit :=
  let sat := if decide (t ∈ sat_tuples c) then sat_tuples c else {[t]} ∪ sat_tuples c in
  let '(sup, r) := index_tuple (scope c) t 0 t (sup_tuples c) in
  Effect (MkConstraint (cons_name c) (scope c) sat sup) [] r.

Fixpoint add_satisfying_tuples (c : Constraint) (tuples : list (list V))
    : effect Constraint unit :=
  match tuples with
  | [] => done_with c
  | t :: rest =>
      let r := add_satisfying_tuple c t in
      match ret r with
      | Raised e => r
      | Returned _ => add_satisfying_tuples (post r) rest
      end
  end.

Definition get_scope (c : Constraint) : list var_ref := scope c.

Definition check (c : Constraint) (vals : list V) : bool :=
  bool_decide (vals ∈ sat_tuples c).

Definition get_n_unasgn (σ : var_store V) (c : Constraint) : nat :=
  foldl (fun n v => if is_assigned (σ v) then n else n + 1) 0 (scope c).

Definition get_unasgn_vars (σ : var_store V) (c : Constraint) : list var_ref :=
  foldl (fun vs v => if is_assigned (σ v) then vs else vs ++ [v]) [] (scope c).

(** The loop [for i, var in enumerate(self.scope)] of [tuple_is_valid], from
    position [i] on. *)
Fixpoint tuple_is_valid_scan (σ : var_store V) (t : list V) (i : nat)
    (sc : list var_ref) : outcome bool :=
  match sc with
  | [] => Returned true
  | var :: sc' =>
      val ← list_get t i;
      b ← in_cur_domain (σ var) val;
      if b : bool then tuple_is_valid_scan σ t (S i) sc' else Returned false
  end.

Definition tuple_is_valid (σ : var_store V) (c : Constraint) (t : list V) : outcome bool :=
  tuple_is_valid_scan σ t 0 (scope c).

(** The loop [for t in self.sup_tuples[(var, val)]] of [has_support]. *)
Fixpoint has_support_scan (σ : var_store V) (c : Constraint) (l : list (list V))
    : outcome bool :=
  match l with
  | [] => Returned false
  | t :: l' =>
      b ← tuple_is_valid σ c t;
      if b : bool then Returned true else has_support_scan σ c l'
  end.

Definition has_support (σ : var_store V) (c : Constraint) (var : var_ref) (val : V)
    : outcome bool :=
  match sup_tuples c !! (var, val) with
  | Some l => has_support_scan σ c l
  | None => Returned false
  end.

(** The constraints a client can build: a new object, then any calls of
    [add_satisfying_tuples] whose tuples all pass [ok] (given the scope). *)
Inductive built (ok : list var_ref → list V → Prop) : Constraint → Prop :=
| built_init nm sc : built ok (Constraint_init nm sc)
| built_add c tuples :
    built ok c → Forall (ok (scope c)) tuples →
    built ok (post (add_satisfying_tuples c tuples)).

Definition any_tuple : list var_ref → list V → Prop := fun _ _ => True.
Definition scope_sized : list var_ref → list V → Prop :=
  fun sc t => length t = length sc.
Definition scope_covering : list var_ref → list V → Prop :=
  fun sc t => length sc ≤ length t.

(** The brute-force reading of "support", in the words of the specification:
    some tuple of the whole table gives [val] to [var] and has the value at
    every position in the current domain of the scope variable at that
    position.  [member] is the test of "in the current domain". *)
Definition gives (c : Constraint) (t : list V) (var : var_ref) (val : V) : Prop :=
  ∃ i, scope c !! i = Some var ∧ t !! i = Some val.

Definition supported_by (member : Var V → V → Prop) (σ : var_store V)
    (c : Constraint) (t : list V) : Prop :=
  ∀ i var val, scope c !! i = Some var → t !! i = Some val → member (σ var) val.

Definition spec_has_support (member : Var V → V → Prop) (σ : var_store V)
    (c : Constraint) (var : var_ref) (val : V) : Prop :=
  ∃ t, t ∈ sat_tuples c ∧ gives c t var val ∧ supported_by member σ c t.

(** The link between the table and the support index. *)
Definition index_sound (c : Constraint) : Prop :=
  ∀ k l t, sup_tuples c !! k = Some l → t ∈ l →
    t ∈ sat_tuples c ∧ gives c t k.1 k.2.

Definition index_complete (c : Constraint) : Prop :=
  ∀ t i var val, t ∈ sat_tuples c →
    scope c !! i = Some var → t !! i = Some val →
    ∃ l, sup_tuples c !! (var, val) = Some l ∧ t ∈ l.

(** Every tuple of the table passes [ok]; with [scope_sized]: every tuple
    of the table has the length of the scope. *)
Definition table_of (ok : list var_ref → list V → Prop) (c : Constraint) : Prop :=
  ∀ t, t ∈ sat_tuples c → ok (scope c) t.
End ConstraintClass.

Arguments Constraint V {_ _}.

(** The constraint objects, by identity. *)
Abbreviation cons_store V := (cons_ref → Constraint V).

(** ** class CSP *)

(** What a caller can pass where an object is expected: [type(v) is
    Variable] and [type(c) is Constraint] tell the three apart. *)
Inductive pyobj : Type :=
| PyVariable (x : var_ref)
| PyConstraint (c : cons_ref)
| PyOther.

Record CSP : Type := MkCSP {
  csp_name : string;
  vars : list var_ref;                          (* self.vars *)
  cons : list cons_ref;                         (* self.cons *)
  vars_to_cons : gmap var_ref (list cons_ref)   (* self.vars_to_cons *)
}.

Definition add_var (p : CSP) (v : pyobj) : effect CSP unit :=
  match v with
  | PyVariable x =>
      if decide (is_Some (vars_to_cons p !! x)) then complain p AlreadyHasVariable
      else done_with (MkCSP (csp_name p) (vars p ++ [x]) (cons p)
                            (<[x:=[]]> (vars_to_cons p)))
  | _ => complain p NonVariable
  end.

(** [__init__(self, name, vars=[])] *)
Definition CSP_init (nm : string) (vs : list pyobj) : CSP :=
  foldl (fun p v => post (add_var p v)) (MkCSP nm [] [] ∅) vs.

(** The loop [for v in c.scope] of [add_constraint]: the index afterwards,
    and whether the loop ran to its end ([false]: it hit the [return]). *)
Fixpoint index_constraint (c : cons_ref) (sc : list var_ref)
    (m : gmap var_ref (list cons_ref)) : gmap var_ref (list cons_ref) * bool :=
  match sc with
  | [] => (m, true)
  | v :: sc' =>
      match m !! v with
      | None => (m, false)
      | Some l => index_constraint c sc' (<[v:=l ++ [c]]> m)
      end
  end.

Section CSPClass.
Context {V : Type} `{Countable V}.

Definition add_constraint (κ : cons_store V) (p : CSP) (o : pyobj) : effect CSP unit :=
  match o with
  | PyConstraint c =>
      let '(m, completed) := index_constraint c (scope (κ c)) (vars_to_cons p) in
      if completed : bool
      then done_with (MkCSP (csp_name p) (vars p) (cons p ++ [c]) m)
      else complain (MkCSP (csp_name p) (vars p) (cons p) m) UnknownVariables
  | _ => complain p NonConstraint
  end.

Definition get_all_cons (p : CSP) : list cons_ref := cons p.

Definition get_cons_with_var (p : CSP) (var : var_ref) : outcome (list cons_ref) :=
  match vars_to_cons p !! var with
  | Some l => Returned l
  | None => Raised KeyError
  end.

Definition get_all_vars (p : CSP) : list var_ref := vars p.

Inductive csp_op : Type :=
| OpAddVar (o : pyobj)
| OpAddConstraint (o : pyobj).

Definition csp_step (κ : cons_store V) (p : CSP) (o : csp_op) : CSP :=
  match o with
  | OpAddVar v => post (add_var p v)
  | OpAddConstraint c => post (add_constraint κ p c)
  end.

Inductive reachable_csp (κ : cons_store V) : CSP → Prop :=
| reachable_csp_init nm vs : reachable_csp κ (CSP_init nm vs)
| reachable_csp_step p o : reachable_csp κ p → reachable_csp κ (csp_step κ p o).

(** The constraints of the constraint list whose scope contains [var]. *)
Definition cons_over (κ : cons_store V) (p : CSP) (var : var_ref) : list cons_ref :=
  filter (fun c => var ∈ scope (κ c)) (get_all_cons p).

(** The registered variables are the keys of the index. *)
Definition csp_wf (p : CSP) : Prop :=
  ∀ x, x ∈ vars p ↔ is_Some (vars_to_cons p !! x).

(** A call that [add_constraint] rejects for an unknown variable. *)
Definition rejected (κ : cons_store V) (p : CSP) (o : csp_op) : Prop :=
  ∃ c v, o = OpAddConstraint (PyConstraint c) ∧ v ∈ scope (κ c) ∧ v ∉ get_all_vars p.

Inductive reachable_unrejected (κ : cons_store V) : CSP → Prop :=
| reachable_unrejected_init nm vs : reachable_unrejected κ (CSP_init nm vs)
| reachable_unrejected_step p o :
    reachable_unrejected κ p → ¬ rejected κ p o →
    reachable_unrejected κ (csp_step κ p o).

(** The index and the constraint list agree. *)
Definition index_agrees (κ : cons_store V) (p : CSP) : Prop :=
  (∀ (c : cons_ref) (v : var_ref), c ∈ cons p → v ∈ scope (κ c) → is_Some (vars_to_cons p !! v)) ∧
  (∀ (v : var_ref) l, vars_to_cons p !! v = Some l →
          ∀ c, c ∈ l ↔ c ∈ cons p ∧ v ∈ scope (κ c)).
End CSPClass.

(** * Properties *)

(** ** Lists *)

Section ListIndex.
Context {A : Type} `{EqDecision A}.

Lemma list_index_lookup (x : A) (l : list A) (i : nat) :
  list_index x l = Some i → l !! i = Some x.
Proof.
  revert i. induction l as [|y l IH]; intros i; simpl; [done|].
  destruct (decide (y = x)) as [->|Hne].
  - intros [= <-]. done.
  - destruct (list_index x l) as [j|] eqn:E; simpl; [|done].
    intros [= <-]. simpl. by apply IH.
Qed.

Lemma list_index_elem (x : A) (l : list A) :
  x ∈ l → ∃ i, list_index x l = Some i.
Proof.
  induction l as [|y l IH]; simpl.
  - by intros ?%elem_of_nil.
  - intros Hx. destruct (decide (y = x)) as [->|Hne]; [by eexists|].
    apply elem_of_cons in Hx as [->|Hx]; [done|].
    destruct (IH Hx) as [i ->]. by eexists.
Qed.

Lemma list_index_NoDup (x : A) (l : list A) (i : nat) :
  NoDup l → l !! i = Some x → list_index x l = Some i.
Proof.
  intros Hnd Hi.
  destruct (list_index_elem x l) as [j Hj]; [by eapply list_elem_of_lookup_2|].
  rewrite Hj. f_equal.
  apply list_index_lookup in Hj. by eapply NoDup_lookup.
Qed.
End ListIndex.

(** ** Variable: reachable states *)

Section VariableFacts.
Context {V : Type} `{EqDecision V}.
Implicit Types (s : Var V) (v value : V) (d : list V) (m : list bool).

Lemma add_domain_values_dom s values :
  dom (add_domain_values s values) = dom s ++ values.
Proof.
  unfold add_domain_values. revert s.
  induction values as [|x values IH]; intros s; simpl.
  - by rewrite app_nil_r.
  - rewrite IH. simpl. by rewrite <- app_assoc.
Qed.

Lemma add_domain_values_curdom s values :
  curdom (add_domain_values s values) = curdom s ++ replicate (length values) true.
Proof.
  unfold add_domain_values. revert s.
  induction values as [|x values IH]; intros s; simpl.
  - by rewrite app_nil_r.
  - rewrite IH. simpl. by rewrite <- app_assoc.
Qed.

Lemma add_domain_values_assigned s values :
  assignedValue (add_domain_values s values) = assignedValue s.
Proof.
  unfold add_domain_values. revert s.
  induction values as [|x values IH]; intros s; simpl; [done|]. by rewrite IH.
Qed.

Lemma restore_loop_length m (l : list nat) :
  length (foldl (fun m i => <[i:=true]> m) m l) = length m.
Proof.
  revert m. induction l as [|i l IH]; intros m; simpl; [done|].
  by rewrite IH, length_insert.
Qed.

Lemma store_flag_cases s value b :
  ((value ∉ dom s) ∧ store_flag s value b = throw s ValueError) ∨
  (∃ i, list_index value (dom s) = Some i ∧
        ((i < length (curdom s) ∧
          store_flag s value b = done_with (set_curdom (<[i:=b]> (curdom s)) s)) ∨
         (length (curdom s) ≤ i ∧ store_flag s value b = throw s IndexError))).
Proof.
  unfold store_flag, value_index.
  destruct (list_index value (dom s)) as [i|] eqn:E.
  - right. exists i. split; [done|]. unfold list_set.
    destruct (decide (i < length (curdom s))); [left|right]; split; auto with lia.
  - left. split; [|done]. intros Hin.
    apply list_index_elem in Hin as [i Hi]. congruence.
Qed.

Lemma store_flag_wf s value b : var_wf s → var_wf (post (store_flag s value b)).
Proof.
  intros [Hlen Hasg].
  destruct (store_flag_cases s value b) as [[_ ->]|(i & _ & [[_ ->]|[_ ->]])];
    simpl; try done.
  split; simpl; [by rewrite length_insert|done].
Qed.

Lemma assign_post s value :
  post (assign s value) = s ∨
  (is_assigned s = false ∧ in_cur_domain s value = Returned true ∧
   post (assign s value) = set_assignedValue (Some value) s).
Proof.
  unfold assign. destruct (is_assigned s); [by left|].
  destruct (in_cur_domain s value) as [[]|]; simpl; auto.
Qed.

Lemma in_cur_domain_true_dom s value :
  in_cur_domain s value = Returned true → value ∈ dom s.
Proof. unfold in_cur_domain. by destruct (decide (value ∈ dom s)). Qed.

Lemma var_step_wf s (o : var_op V) : var_wf s → var_wf (var_step s o).
Proof.
  intros Hwf. destruct o as [values|value|value| |value| ]; simpl.
  - destruct Hwf as [Hlen Hasg]. split.
    + rewrite add_domain_values_dom, add_domain_values_curdom.
      rewrite !length_app, length_replicate. lia.
    + intros a. rewrite add_domain_values_assigned, add_domain_values_dom.
      intros Ha. apply elem_of_app. left. by apply Hasg.
  - by apply store_flag_wf.
  - by apply store_flag_wf.
  - destruct Hwf as [Hlen Hasg]. split; simpl; [|done].
    by rewrite restore_loop_length.
  - destruct (assign_post s value) as [->|(_ & Hin & ->)]; [done|].
    destruct Hwf as [Hlen _]. split; simpl; [done|].
    intros a [= <-]. by apply in_cur_domain_true_dom.
  - unfold unassign. destruct (is_assigned s); simpl; [|done].
    destruct Hwf as [Hlen _]. split; simpl; done.
Qed.

Lemma reachable_var_wf s : reachable_var s → var_wf s.
Proof.
  induction 1 as [nm domain|s o _ IH].
  - split; simpl; [by rewrite length_replicate|done].
  - by apply var_step_wf.
Qed.

Lemma reachable_var_run nm domain (ops : list (var_op V)) :
  reachable_var (foldl var_step (Variable_init nm domain) ops).
Proof.
  induction ops as [|o ops IH] using rev_ind; simpl; [constructor|].
  rewrite foldl_app. simpl. by constructor.
Qed.

(** ** Variable: the two views of the current domain *)

Lemma cur_domain_scan_flagged i d m :
  length d ≤ length (drop i m) →
  cur_domain_scan i d m = Returned (flagged d (drop i m)).
Proof.
  revert i. induction d as [|val d IH]; intros i Hlen; simpl; [done|].
  destruct (drop i m) as [|b m'] eqn:E; simpl in Hlen; [lia|].
  assert (m !! i = Some b) as Hi.
  { rewrite <- (Nat.add_0_r i), <- lookup_drop, E. done. }
  assert (drop (S i) m = m') as Hd.
  { replace (S i) with (i + 1) by lia. by rewrite <- drop_drop, E. }
  unfold list_get. rewrite Hi. simpl.
  rewrite IH by (rewrite Hd; lia). simpl. rewrite Hd.
  unfold flagged. simpl. rewrite filter_cons. simpl.
  by destruct b.
Qed.

Lemma cur_domain_unassigned s :
  var_wf s → is_assigned s = false →
  cur_domain s = Returned (flagged (dom s) (curdom s)).
Proof.
  intros [Hlen _] Hun. unfold cur_domain, get_assigned_value.
  unfold is_assigned in Hun. destruct (assignedValue s); [done|].
  rewrite (cur_domain_scan_flagged 0), drop_0; [done|]. rewrite drop_0. lia.
Qed.

Lemma elem_of_flagged v d m :
  v ∈ flagged d m ↔ ∃ i, d !! i = Some v ∧ m !! i = Some true.
Proof.
  unfold flagged. rewrite list_elem_of_fmap. split.
  - intros ([v' b] & -> & Hin). apply list_elem_of_filter in Hin as [Hb Hin].
    simpl in Hb. subst b. apply list_elem_of_lookup in Hin as [i Hi].
    exists i. apply lookup_zip_with_Some in Hi as (x & y & [= -> ->] & ? & ?). done.
  - intros (i & Hd & Hm). exists (v, true). split; [done|].
    apply list_elem_of_filter. split; [done|].
    apply list_elem_of_lookup. exists i.
    apply lookup_zip_with_Some. eauto.
Qed.

Lemma in_cur_domain_returns s value :
  var_wf s → ∃ b, in_cur_domain s value = Returned b.
Proof.
  intros [Hlen _]. unfold in_cur_domain.
  destruct (decide (value ∈ dom s)) as [Hin|]; [|by eexists].
  unfold get_assigned_value. destruct (assignedValue s); [by eexists|].
  unfold value_index. destruct (list_index_elem _ _ Hin) as [i Hi]. rewrite Hi. simpl.
  apply list_index_lookup, lookup_lt_Some in Hi. rewrite <- Hlen in Hi.
  apply lookup_lt_is_Some in Hi as [b Hb]. unfold list_get. rewrite Hb. by eexists.
Qed.

Lemma in_cur_domain_unassigned s value :
  is_assigned s = false →
  in_cur_domain s value = Returned true ↔
  ∃ i, list_index value (dom s) = Some i ∧ curdom s !! i = Some true.
Proof.
  intros Hun. unfold in_cur_domain, get_assigned_value, is_assigned in *.
  destruct (assignedValue s); [done|].
  destruct (decide (value ∈ dom s)) as [Hin|Hnin].
  - unfold value_index. destruct (list_index_elem _ _ Hin) as [i Hi]. rewrite Hi. simpl.
    unfold list_get. split.
    + destruct (curdom s !! i) as [b|] eqn:E; [|done]. intros [= ->]. eauto.
    + intros (j & [= <-] & ->). done.
  - split; [done|]. intros (i & Hi & _). exfalso. apply Hnin.
    apply list_index_lookup in Hi. by eapply list_elem_of_lookup_2.
Qed.

Lemma in_cur_domain_assigned s value a :
  assignedValue s = Some a → a ∈ dom s →
  in_cur_domain s value = Returned true ↔ value = a.
Proof.
  intros Ha Hin. unfold in_cur_domain, get_assigned_value. rewrite Ha.
  destruct (decide (value ∈ dom s)) as [Hv|Hv].
  - split.
    + intros [= Hb]. by apply bool_decide_eq_true in Hb.
    + intros ->. by rewrite bool_decide_eq_true_2.
  - split; [done|]. intros ->. done.
Qed.

(** [in_cur_domain] never accepts a value that [cur_domain()] does not list. *)
Lemma in_cur_domain_sound s value :
  var_wf s → by_in_cur_domain s value → by_cur_domain s value.
Proof.
  intros Hwf Hin. unfold by_in_cur_domain, by_cur_domain in *.
  destruct (assignedValue s) as [a|] eqn:Ha.
  - exists [a]. unfold cur_domain, get_assigned_value. rewrite Ha. split; [done|].
    apply in_cur_domain_assigned with (a := a) in Hin as ->; [set_solver|done|].
    by apply Hwf.
  - assert (is_assigned s = false) as Hun by (unfold is_assigned; by rewrite Ha).
    eexists. split; [by apply cur_domain_unassigned|].
    apply in_cur_domain_unassigned in Hin as (i & Hi & Hm); [|done].
    apply elem_of_flagged. exists i. split; [|done]. by apply list_index_lookup.
Qed.

(** With no value listed twice in the domain the two views coincide. *)
Lemma in_cur_domain_complete s value :
  var_wf s → NoDup (dom s) → by_cur_domain s value → by_in_cur_domain s value.
Proof.
  intros Hwf Hnd (l & Hl & Hin). unfold by_in_cur_domain.
  destruct (assignedValue s) as [a|] eqn:Ha.
  - unfold cur_domain, get_assigned_value in Hl. rewrite Ha in Hl.
    injection Hl as <-. apply list_elem_of_singleton in Hin as ->.
    apply (in_cur_domain_assigned s a a); [done| |done]. by apply Hwf.
  - assert (is_assigned s = false) as Hun by (unfold is_assigned; by rewrite Ha).
    rewrite (cur_domain_unassigned s Hwf Hun) in Hl. injection Hl as <-.
    apply elem_of_flagged in Hin as (i & Hd & Hm).
    apply in_cur_domain_unassigned; [done|]. exists i. split; [|done].
    by apply list_index_NoDup.
Qed.
End VariableFacts.

Section VariableClaims.
Context {V : Type} `{EqDecision V}.
Implicit Types (s : Var V) (v value : V).

Lemma assign_keeps_mask s v : curdom (post (assign s v)) = curdom s.
Proof. by destruct (assign_post s v) as [->|(_ & _ & ->)]. Qed.

Lemma unassign_keeps_mask s : curdom (post (unassign s)) = curdom s.
Proof. unfold unassign. by destruct (is_assigned s). Qed.

(** C3 (amended).  In a reachable state of a variable that is not assigned,
    for a value [v] that [in_cur_domain] accepts (when no value occurs
    twice in the domain: for every [v] in the list [cur_domain()]): after
    [assign(v)] the assigned value is [v] and [cur_domain()] is [[v]]; after
    the [unassign()] that follows, [cur_domain()] is the list of the domain
    values whose flag is set, the same list as before the two calls.  No
    call of [assign] or [unassign], accepted or not, changes the flags. *)
Theorem assign_unassign_cycle s v :
  reachable_var s → is_assigned s = false →
  by_in_cur_domain s v ∨ (NoDup (dom s) ∧ by_cur_domain s v) →
  let s1 := post (assign s v) in
  let s2 := post (unassign s1) in
  get_assigned_value s1 = Some v ∧
  cur_domain s1 = Returned [v] ∧
  cur_domain s2 = Returned (flagged (dom s2) (curdom s2)) ∧
  cur_domain s2 = cur_domain s ∧
  curdom s1 = curdom s ∧ curdom s2 = curdom s ∧
  (∀ s' v', curdom (post (assign s' v')) = curdom s') ∧
  (∀ s', curdom (post (unassign s')) = curdom s').
Proof.
  intros Hreach Hun Hmem s1 s2.
  pose proof (reachable_var_wf s Hreach) as Hwf.
  assert (by_in_cur_domain s v) as Hin.
  { destruct Hmem as [?|[Hnd Hl]]; [done|]. by apply in_cur_domain_complete. }
  assert (s1 = set_assignedValue (Some v) s) as E1.
  { subst s1. unfold assign. rewrite Hun. unfold by_in_cur_domain in Hin. by rewrite Hin. }
  assert (s2 = s) as E2.
  { subst s2. rewrite E1. unfold unassign. simpl.
    unfold is_assigned in Hun. destruct s as [nm d m [a|]]; simpl in *; done. }
  rewrite E2. rewrite E1. simpl.
  repeat split; auto using assign_keeps_mask, unassign_keeps_mask.
  by apply cur_domain_unassigned.
Qed.

Lemma complain_fails_with s (m : message) (k : error_kind) :
  signal_of k = Printed m → fails_with (complain s m) k.
Proof. unfold fails_with. by intros ->. Qed.

(** C8.  In a reachable state: [assign(v)] on a variable that is assigned,
    or with a value that is not in the current domain (for either way of
    asking), prints the assignment error and changes nothing; [unassign()]
    on a variable that is not assigned prints the unassignment error and
    changes nothing; [prune_value(v)] and [unprune_value(v)] with a value
    outside the domain raise [ValueError] and change nothing. *)
Theorem variable_errors s v :
  reachable_var s →
  (is_assigned s = true ∨ ¬ by_in_cur_domain s v ∨ ¬ by_cur_domain s v →
     fails_with (assign s v) InvalidAssignment ∧ post (assign s v) = s) ∧
  (is_assigned s = false →
     fails_with (unassign s) InvalidUnassignment ∧ post (unassign s) = s) ∧
  (v ∉ dom s →
     fails_with (prune_value s v) ValueNotInDomain ∧ post (prune_value s v) = s ∧
     fails_with (unprune_value s v) ValueNotInDomain ∧ post (unprune_value s v) = s).
Proof.
  intros Hwf%reachable_var_wf. split; [|split].
  - intros Hbad.
    assert (is_assigned s = true ∨ in_cur_domain s v = Returned false) as [Ha|Hf].
    { destruct Hbad as [?|Hbad]; [by left|].
      destruct (in_cur_domain_returns s v Hwf) as [[] Hb]; [|by right].
      exfalso. destruct Hbad as [Hn|Hn]; apply Hn; [done|].
      by apply in_cur_domain_sound. }
    + unfold assign. rewrite Ha. split; [by apply complain_fails_with|done].
    + unfold assign. destruct (is_assigned s); [|rewrite Hf];
        (split; [by apply complain_fails_with|done]).
  - intros Hun. unfold unassign. rewrite Hun.
    split; [by apply complain_fails_with|done].
  - intros Hout. unfold prune_value, unprune_value.
    destruct (store_flag_cases s v false) as [[_ ->]|(i & Hi & _)];
      destruct (store_flag_cases s v true) as [[_ ->]|(j & Hj & _)]; try done.
    all: exfalso; apply Hout; eapply list_elem_of_lookup_2, list_index_lookup; eauto.
Qed.

Lemma cur_domain_returns s : var_wf s → ∃ l, cur_domain s = Returned l.
Proof.
  intros Hwf. destruct (is_assigned s) eqn:E.
  - unfold cur_domain, get_assigned_value. unfold is_assigned in E.
    destruct (assignedValue s); [by eexists|done].
  - eexists. by apply cur_domain_unassigned.
Qed.

(** C9 (amended).  In every reachable state both queries return, and a
    value that [in_cur_domain] accepts is in the list of [cur_domain()];
    when no value occurs twice in the domain, [in_cur_domain] accepts
    exactly the members of that list. *)
Theorem in_cur_domain_vs_cur_domain s v :
  reachable_var s →
  ∃ l b, cur_domain s = Returned l ∧ in_cur_domain s v = Returned b ∧
    (b = true → v ∈ l) ∧
    (NoDup (dom s) → (b = true ↔ v ∈ l)).
Proof.
  intros Hwf%reachable_var_wf.
  destruct (cur_domain_returns s Hwf) as [l Hl].
  destruct (in_cur_domain_returns s v Hwf) as [b Hb].
  exists l, b. split; [done|]. split; [done|].
  assert (b = true → v ∈ l) as Hsound.
  { intros ->. destruct (in_cur_domain_sound s v Hwf Hb) as (l' & Hl' & Hin).
    congruence. }
  split; [done|]. intros Hnd. split; [done|]. intros Hin.
  assert (by_in_cur_domain s v) as Hacc.
  { apply in_cur_domain_complete; [done..|]. by exists l. }
  unfold by_in_cur_domain in Hacc. congruence.
Qed.

(** C10.  For a value that is not in the permanent domain, [in_cur_domain]
    returns [False]: it raises nothing, whatever the flags and whether or
    not the variable is assigned. *)
Theorem in_cur_domain_outside_domain s v :
  v ∉ dom s → in_cur_domain s v = Returned false.
Proof. intros Hout. unfold in_cur_domain. by rewrite decide_False. Qed.
End VariableClaims.

(** A variable with domain [1, 2, 3] after [prune_value(2)]. *)
Lemma assign_unassign_cycle_witness :
  let s := foldl var_step (Variable_init "X" [1; 2; 3]) [OpPruneValue 2] in
  let s1 := post (assign s 3) in
  let s2 := post (unassign s1) in
  cur_domain s = Returned [1; 3] ∧
  get_assigned_value s1 = Some 3 ∧ cur_domain s1 = Returned [3] ∧
  cur_domain s2 = Returned [1; 3].
Proof.
  intros s s1 s2.
  destruct (assign_unassign_cycle s 3) as (H1 & H2 & H3 & H4 & _).
  - apply reachable_var_run.
  - reflexivity.
  - left. reflexivity.
  - split; [reflexivity|]. split; [exact H1|]. split; [exact H2|].
    fold s1 s2 in H4. rewrite H4. reflexivity.
Defined.

(** C3 as stated fails here.  Domain [1, 1, 2] after [prune_value(1)]: the
    flags are [False, True, True] and [cur_domain()] is [[1, 2]], so 1 is in
    the current domain; [assign(1)] looks at the first flag, prints the
    assignment error and assigns nothing. *)
Lemma assign_rejects_listed_duplicate :
  let s := foldl var_step (Variable_init "X" [1; 1; 2]) [OpPruneValue 1] in
  reachable_var s ∧ is_assigned s = false ∧
  cur_domain s = Returned [1; 2] ∧ 1 ∈ [1; 2] ∧
  out (assign s 1) = [AssignError] ∧
  get_assigned_value (post (assign s 1)) = None ∧
  get_assigned_value (post (assign s 1)) ≠ Some 1 ∧
  cur_domain (post (assign s 1)) ≠ Returned [1].
Proof.
  intros s. split; [apply reachable_var_run|].
  split; [reflexivity|]. split; [reflexivity|]. split; [set_solver|].
  split; [reflexivity|]. split; [reflexivity|]. split; by vm_compute.
Qed.

(** The same variable: [assign(2)] of the pruned value, [unassign()], and
    [prune_value(7)] of a value outside the domain. *)
Lemma variable_errors_witness :
  let s := foldl var_step (Variable_init "X" [1; 2; 3]) [OpPruneValue 2] in
  out (assign s 2) = [AssignError] ∧ post (assign s 2) = s ∧
  out (unassign s) = [UnassignError] ∧ post (unassign s) = s ∧
  ret (prune_value s 7) = Raised ValueError ∧ post (prune_value s 7) = s.
Proof.
  intros s.
  destruct (variable_errors s 2 (reachable_var_run _ _ _)) as (Ha & Hu & _).
  destruct (variable_errors s 7 (reachable_var_run _ _ _)) as (_ & _ & Hp).
  destruct Ha as [Ha1 Ha2]; [right; left; by vm_compute|].
  destruct Hu as [Hu1 Hu2]; [reflexivity|].
  destruct Hp as (Hp1 & Hp2 & _); [compute_done|].
  repeat split; assumption.
Defined.

(** C9 as stated fails here.  Domain [1, 1] after [prune_value(1)]: the
    flags are [False, True], so [cur_domain()] lists 1 and
    [in_cur_domain(1)] is [False]. *)
Lemma in_cur_domain_misses_duplicate :
  let s := foldl var_step (Variable_init "X" [1; 1]) [OpPruneValue 1] in
  reachable_var s ∧ cur_domain s = Returned [1] ∧ 1 ∈ [1] ∧
  in_cur_domain s 1 = Returned false.
Proof.
  intros s. split; [apply reachable_var_run|].
  split; [reflexivity|]. split; [set_solver|reflexivity].
Qed.

(** The variable with domain [1, 2, 3] after [prune_value(2)], asked for 2. *)
Lemma in_cur_domain_vs_cur_domain_witness :
  let s := foldl var_step (Variable_init "X" [1; 2; 3]) [OpPruneValue 2] in
  ∃ l b, cur_domain s = Returned l ∧ in_cur_domain s 2 = Returned b ∧
    (b = true → 2 ∈ l) ∧ (NoDup (dom s) → (b = true ↔ 2 ∈ l)).
Proof.
  intros s. apply (in_cur_domain_vs_cur_domain s 2). apply reachable_var_run.
Defined.

(** Domain [1, 2, 3] and the value 7, before and after [assign(1)]. *)
Lemma in_cur_domain_outside_domain_witness :
  let s := Variable_init "X" [1; 2; 3] in
  in_cur_domain s 7 = Returned false ∧
  in_cur_domain (post (assign s 1)) 7 = Returned false.
Proof.
  intros s. split; apply in_cur_domain_outside_domain; compute_done.
Defined.

(** ** Variable: restoring the current domain *)

Section RestoreFacts.
Context {V : Type} `{EqDecision V}.
Implicit Types (s : Var V) (m : list bool).

Lemma restore_loop_lookup m (l : list nat) (j : nat) :
  foldl (fun m i => <[i:=true]> m) m l !! j =
  if decide (j ∈ l ∧ j < length m) then Some true else m !! j.
Proof.
  revert m. induction l as [|i l IH]; intros m; cbn [foldl].
  { case_decide as Hd; [|done]. destruct Hd as [Hd _]. by apply elem_of_nil in Hd. }
  rewrite IH, length_insert.
  destruct (decide (i = j)) as [->|Hne].
  - destruct (decide (j < length m)) as [Hlt|Hge].
    + rewrite list_lookup_insert_eq by done.
      rewrite (decide_True (P := j ∈ j :: l ∧ j < length m)) by set_solver.
      by destruct (decide _).
    + rewrite list_insert_ge by lia.
      rewrite (decide_False (P := j ∈ l ∧ j < length m)) by naive_solver.
      rewrite (decide_False (P := j ∈ j :: l ∧ j < length m)) by naive_solver.
      done.
  - rewrite list_lookup_insert_ne by done.
    destruct (decide (j ∈ l ∧ j < length m)) as [Hd|Hd].
    + rewrite decide_True; [done|]. set_solver.
    + rewrite decide_False; [done|]. set_solver.
Qed.

Lemma restore_curdom_flags s :
  curdom (restore_curdom s) = replicate (length (curdom s)) true.
Proof.
  unfold restore_curdom. simpl. apply list_eq. intros j.
  rewrite restore_loop_lookup.
  destruct (decide (j < length (curdom s))) as [Hlt|Hge].
  - rewrite decide_True, lookup_replicate_2; [done..|].
    split; [|done]. apply elem_of_seq. lia.
  - rewrite decide_False by naive_solver.
    rewrite !lookup_ge_None_2; [done| |lia]. rewrite length_replicate. lia.
Qed.

Lemma filter_replicate_true (n : nat) :
  filter (fun b => b = true) (replicate n true) = replicate n true.
Proof. induction n as [|n IH]; simpl; [done|]. by rewrite filter_cons, decide_True, IH. Qed.

(** X1.  In a reachable state of a variable that is not assigned, after
    [restore_curdom()] the variable is still not assigned and
    [cur_domain_size()] equals [domain_size()]. *)
Theorem restore_curdom_full s :
  reachable_var s → is_assigned s = false →
  is_assigned (restore_curdom s) = false ∧
  cur_domain_size (restore_curdom s) = domain_size (restore_curdom s).
Proof.
  intros [Hlen _]%reachable_var_wf Hun. split; [done|].
  unfold cur_domain_size, domain_size.
  replace (is_assigned (restore_curdom s)) with (is_assigned s) by done.
  rewrite Hun, restore_curdom_flags, filter_replicate_true, length_replicate.
  by rewrite Hlen.
Qed.
End RestoreFacts.

(** Domain [1, 2, 3] after [prune_value(2)] and [prune_value(3)]. *)
Lemma restore_curdom_full_witness :
  let s := foldl var_step (Variable_init "X" [1; 2; 3]) [OpPruneValue 2; OpPruneValue 3] in
  cur_domain_size s = 1 ∧
  is_assigned (restore_curdom s) = false ∧
  cur_domain_size (restore_curdom s) = domain_size (restore_curdom s).
Proof.
  intros s. split; [reflexivity|].
  apply (restore_curdom_full s); [apply reachable_var_run|reflexivity].
Defined.

(** ** Constraint: the support index *)

Section ConstraintFacts.
Context {V : Type} `{Countable V}.
Implicit Types (c : Constraint V) (t : list V) (σ : var_store V)
  (sup : gmap (var_ref * V) (list (list V))) (sc : list var_ref).

Lemma lookup_append_support (k k' : var_ref * V) t sup :
  append_support k t sup !! k' =
  if decide (k = k') then Some (default [] (sup !! k) ++ [t]) else sup !! k'.
Proof.
  unfold append_support.
  destruct (decide (k = k')) as [<-|Hne].
  - rewrite lookup_alter_eq.
    destruct (decide (is_Some (sup !! k))) as [[l Hl]|Hn].
    + by rewrite Hl.
    + rewrite lookup_insert_eq. apply eq_None_not_Some in Hn. by rewrite Hn.
  - rewrite lookup_alter_ne by done.
    destruct (decide (is_Some (sup !! k))); [done|]. by rewrite lookup_insert_ne.
Qed.

(** What the indexing loop does to an entry: it appends copies of [t], one
    for each position of the tuple that names the entry's key. *)
Lemma index_tuple_entries sc t (vals : list V) (i : nat) sup (k : var_ref * V) :
  ∃ n, default [] ((index_tuple sc t i vals sup).1 !! k)
         = default [] (sup !! k) ++ replicate n t ∧
       (n = 0 → (index_tuple sc t i vals sup).1 !! k = sup !! k) ∧
       (0 < n → is_Some ((index_tuple sc t i vals sup).1 !! k) ∧
                ∃ j, sc !! (i + j) = Some k.1 ∧ vals !! j = Some k.2).
Proof.
  revert i sup. induction vals as [|val vals IH]; intros i sup; simpl.
  { exists 0. simpl. rewrite app_nil_r. split; [done|]. split; [done|lia]. }
  unfold list_get. destruct (sc !! i) as [var|] eqn:Hi; simpl.
  2:{ exists 0. simpl. rewrite app_nil_r. split; [done|]. split; [done|lia]. }
  destruct (IH (S i) (append_support (var, val) t sup)) as (n & Hn & Hz & Hp).
  rewrite lookup_append_support in Hn, Hz.
  destruct (decide ((var, val) = k)) as [<-|Hne].
  - exists (S n). simpl in *. split; [|split].
    + rewrite Hn. by rewrite <- app_assoc.
    + lia.
    + intros _. split.
      * destruct n as [|n]; [rewrite Hz by done; by eexists|].
        apply Hp. lia.
      * exists 0. by rewrite Nat.add_0_r.
  - exists n. split; [done|]. split; [done|].
    intros Hpos. destruct (Hp Hpos) as (Hs & j & Hj1 & Hj2). split; [done|].
    exists (S j). split; [|done]. by rewrite Nat.add_succ_r.
Qed.

Lemma index_tuple_covers sc t (vals : list V) (i : nat) sup j var val :
  sc !! (i + j) = Some var → vals !! j = Some val →
  ∃ l, (index_tuple sc t i vals sup).1 !! (var, val) = Some l ∧ t ∈ l.
Proof.
  revert i sup j. induction vals as [|val0 vals IH]; intros i sup j Hsc Hv; [done|].
  simpl. unfold list_get. destruct j as [|j]; simpl in Hv.
  - injection Hv as ->. rewrite Nat.add_0_r in Hsc. rewrite Hsc.
    destruct (index_tuple_entries sc t vals (S i)
                (append_support (var, val) t sup) (var, val)) as (n & Hn & Hz & Hp).
    rewrite lookup_append_support, decide_True in Hn, Hz by done. simpl in Hn.
    assert (is_Some ((index_tuple sc t (S i) vals
                        (append_support (var, val) t sup)).1 !! (var, val))) as [l Hl].
    { destruct n; [rewrite Hz by done; by eexists|]. apply Hp. lia. }
    exists l. split; [done|]. rewrite Hl in Hn. simpl in Hn. rewrite Hn.
    rewrite !elem_of_app, list_elem_of_singleton. auto.
  - destruct (sc !! i) as [var0|] eqn:Hi.
    + apply IH with (j := j); [|done]. by rewrite Nat.add_succ_l, <- Nat.add_succ_r.
    + apply lookup_ge_None in Hi. apply lookup_lt_Some in Hsc. lia.
Qed.

Lemma index_tuple_ret sc t (vals : list V) (i : nat) sup :
  (index_tuple sc t i vals sup).2 =
  if decide (vals = [] ∨ i + length vals ≤ length sc) then Returned tt
  else Raised IndexError.
Proof.
  revert i sup. induction vals as [|val vals IH]; intros i sup; cbn [index_tuple].
  { case_decide; [done|]. naive_solver. }
  unfold list_get. destruct (sc !! i) as [var|] eqn:Hi.
  - rewrite IH. apply lookup_lt_Some in Hi.
    destruct vals as [|val' vals]; cbn [length] in *;
      repeat case_decide; try done; exfalso; naive_solver lia.
  - cbn [snd length]. apply lookup_ge_None in Hi.
    case_decide; [|done]. exfalso. naive_solver lia.
Qed.

Lemma add_satisfying_tuple_fields c t :
  cons_name (post (add_satisfying_tuple c t)) = cons_name c ∧
  scope (post (add_satisfying_tuple c t)) = scope c ∧
  sat_tuples (post (add_satisfying_tuple c t)) = {[t]} ∪ sat_tuples c ∧
  sup_tuples (post (add_satisfying_tuple c t))
    = (index_tuple (scope c) t 0 t (sup_tuples c)).1 ∧
  ret (add_satisfying_tuple c t)
    = (if decide (length t ≤ length (scope c)) then Returned tt
       else Raised IndexError) ∧
  out (add_satisfying_tuple c t) = [].
Proof.
  unfold add_satisfying_tuple.
  pose proof (index_tuple_ret (scope c) t t 0 (sup_tuples c)) as Hret.
  destruct (index_tuple (scope c) t 0 t (sup_tuples c)) as [sup r]; simpl in *.
  repeat split; try done.
  - destruct (decide (t ∈ sat_tuples c)); set_solver.
  - rewrite Hret. destruct t as [|? ?]; cbn [length];
      repeat case_decide; try done; exfalso; naive_solver lia.
Qed.

(** A call of [add_satisfying_tuples] is the single step, repeated until a
    step raises. *)
Lemma add_satisfying_tuples_cons c t (rest : list (list V)) :
  add_satisfying_tuples c (t :: rest) =
  if decide (length t ≤ length (scope c))
  then add_satisfying_tuples (post (add_satisfying_tuple c t)) rest
  else add_satisfying_tuple c t.
Proof.
  simpl. destruct (add_satisfying_tuple_fields c t) as (_ & _ & _ & _ & Hret & _).
  rewrite Hret. by case_decide.
Qed.

(** The scope is never changed. *)
Lemma add_satisfying_tuples_scope c (tuples : list (list V)) :
  scope (post (add_satisfying_tuples c tuples)) = scope c.
Proof.
  revert c. induction tuples as [|t rest IH]; intros c; [done|].
  rewrite add_satisfying_tuples_cons.
  destruct (add_satisfying_tuple_fields c t) as (_ & Hsc & _).
  case_decide; [by rewrite IH|done].
Qed.

(** The link between table and index is kept by every call. *)

Lemma add_satisfying_tuple_sound c t :
  index_sound c → index_sound (post (add_satisfying_tuple c t)).
Proof.
  intros Hs k l t' Hl Hin.
  destruct (add_satisfying_tuple_fields c t) as (_ & Hsc & Hsat & Hsup & _).
  unfold gives. rewrite Hsat, Hsc. rewrite Hsup in Hl.
  destruct (index_tuple_entries (scope c) t t 0 (sup_tuples c) k) as (n & Hn & Hz & Hp).
  rewrite Hl in Hn. simpl in Hn. subst l.
  apply elem_of_app in Hin as [Hin|Hin].
  - destruct (sup_tuples c !! k) as [l0|] eqn:E; simpl in Hin; [|by apply elem_of_nil in Hin].
    destruct (Hs k l0 t' E Hin) as [? ?]. split; [set_solver|done].
  - apply elem_of_replicate in Hin as [-> Hn0].
    split; [set_solver|]. destruct Hp as (_ & j & ? & ?); [lia|]. by exists j.
Qed.

Lemma add_satisfying_tuple_complete c t :
  index_complete c → index_complete (post (add_satisfying_tuple c t)).
Proof.
  intros Hc t' i var val.
  destruct (add_satisfying_tuple_fields c t) as (_ & Hsc & Hsat & Hsup & _).
  rewrite Hsat, Hsc, Hsup. intros Hin Hi Hv.
  destruct (decide (t' = t)) as [->|Hne].
  - by apply index_tuple_covers with (j := i).
  - assert (t' ∈ sat_tuples c) as Hold by set_solver.
    destruct (Hc t' i var val Hold Hi Hv) as (l & Hl & Hl').
    destruct (index_tuple_entries (scope c) t t 0 (sup_tuples c) (var, val))
      as (n & Hn & Hz & Hp).
    rewrite Hl in Hn, Hz. simpl in Hn.
    destruct n as [|n].
    + exists l. by rewrite Hz.
    + destruct Hp as ([l1 Hl1] & _); [lia|]. rewrite Hl1 in Hn. simpl in Hn.
      exists l1. split; [done|]. rewrite Hn. set_solver.
Qed.

Lemma add_satisfying_tuple_table_of (ok : list var_ref → list V → Prop) c t :
  ok (scope c) t → table_of ok c →
  table_of ok (post (add_satisfying_tuple c t)).
Proof.
  intros Hlen Hs t'.
  destruct (add_satisfying_tuple_fields c t) as (_ & Hsc & Hsat & _).
  rewrite Hsat, Hsc. intros [->%elem_of_singleton|Hin]%elem_of_union; [done|].
  by apply Hs.
Qed.

Lemma add_satisfying_tuples_invariants (ok : list var_ref → list V → Prop)
    c (tuples : list (list V)) :
  (index_sound c → index_sound (post (add_satisfying_tuples c tuples))) ∧
  (index_complete c → index_complete (post (add_satisfying_tuples c tuples))) ∧
  (Forall (ok (scope c)) tuples → table_of ok c →
   table_of ok (post (add_satisfying_tuples c tuples))).
Proof.
  revert c. induction tuples as [|t rest IH]; intros c; [done|].
  rewrite add_satisfying_tuples_cons.
  destruct (add_satisfying_tuple_fields c t) as (_ & Hsc & _).
  destruct (IH (post (add_satisfying_tuple c t))) as (IH1 & IH2 & IH3).
  case_decide.
  - split; [|split].
    + intros ?. by apply IH1, add_satisfying_tuple_sound.
    + intros ?. by apply IH2, add_satisfying_tuple_complete.
    + intros [Ht Hrest]%Forall_cons ?. apply IH3; [by rewrite Hsc|].
      by apply add_satisfying_tuple_table_of.
  - split; [|split].
    + apply add_satisfying_tuple_sound.
    + apply add_satisfying_tuple_complete.
    + intros [Ht Hrest]%Forall_cons ?. by apply add_satisfying_tuple_table_of.
Qed.

Lemma built_invariants (ok : list var_ref → list V → Prop) c :
  built ok c → index_sound c ∧ index_complete c.
Proof.
  induction 1 as [nm sc|c tuples _ [IH1 IH2] _].
  - split.
    + intros k l t Hl. simpl in Hl. by rewrite lookup_empty in Hl.
    + intros t i var val Hin. by apply not_elem_of_empty in Hin.
  - destruct (add_satisfying_tuples_invariants ok c tuples) as (H1 & H2 & _). auto.
Qed.

Lemma built_table_of (ok : list var_ref → list V → Prop) c :
  built ok c → table_of ok c.
Proof.
  induction 1 as [nm sc|c tuples _ IH Hok].
  - intros t Hin. by apply not_elem_of_empty in Hin.
  - destruct (add_satisfying_tuples_invariants ok c tuples) as (_ & _ & H3). auto.
Qed.

End ConstraintFacts.

Section SupportFacts.
Context {V : Type} `{Countable V}.
Implicit Types (c : Constraint V) (t : list V) (σ : var_store V)
  (l : list (list V)) (sc : list var_ref).

Lemma has_support_scan_scope σ c c' l :
  scope c' = scope c → has_support_scan σ c' l = has_support_scan σ c l.
Proof.
  intros Hsc. induction l as [|t l IH]; simpl; [done|].
  unfold tuple_is_valid. by rewrite Hsc, IH.
Qed.

Lemma has_support_scan_app σ c l1 l2 :
  has_support_scan σ c (l1 ++ l2) =
  match has_support_scan σ c l1 with
  | Returned false => has_support_scan σ c l2
  | r => r
  end.
Proof.
  induction l1 as [|t l1 IH]; simpl; [done|].
  destruct (tuple_is_valid σ c t) as [[]|e]; simpl; done.
Qed.

Lemma has_support_scan_false σ c l t :
  has_support_scan σ c l = Returned false → t ∈ l →
  tuple_is_valid σ c t = Returned false.
Proof.
  induction l as [|t' l IH]; simpl.
  - by intros _ ?%elem_of_nil.
  - destruct (tuple_is_valid σ c t') as [[]|e] eqn:E; simpl; try done.
    intros Hl [->|Hin]%elem_of_cons; auto.
Qed.

Lemma has_support_scan_replicate σ c t (n : nat) :
  tuple_is_valid σ c t = Returned false →
  has_support_scan σ c (replicate n t) = Returned false.
Proof. intros Ht. induction n as [|n IH]; simpl; [done|]. by rewrite Ht. Qed.

(** Further copies of a tuple that an entry already lists do not change
    what the scan of the entry gives. *)
Lemma has_support_scan_absorb σ c l t (n : nat) :
  t ∈ l → has_support_scan σ c (l ++ replicate n t) = has_support_scan σ c l.
Proof.
  intros Hin. rewrite has_support_scan_app.
  destruct (has_support_scan σ c l) as [[]|e] eqn:E; try done.
  apply has_support_scan_replicate. by eapply has_support_scan_false.
Qed.

Lemma add_present_tuple_again c t :
  index_complete c → t ∈ sat_tuples c →
  sat_tuples (post (add_satisfying_tuple c t)) = sat_tuples c ∧
  ∀ σ var val, has_support σ (post (add_satisfying_tuple c t)) var val
               = has_support σ c var val.
Proof.
  intros Hc Hin.
  destruct (add_satisfying_tuple_fields c t) as (_ & Hsc & Hsat & Hsup & _).
  split; [rewrite Hsat; set_solver|].
  intros σ var val. unfold has_support. rewrite Hsup.
  destruct (index_tuple_entries (scope c) t t 0 (sup_tuples c) (var, val))
    as (n & Hn & Hz & Hp).
  destruct n as [|n].
  - rewrite Hz by done. destruct (sup_tuples c !! (var, val)); [|done].
    by apply has_support_scan_scope.
  - destruct Hp as ([l1 Hl1] & j & Hj1 & Hj2); [lia|]. simpl in Hj1, Hj2.
    destruct (Hc t j var val Hin Hj1 Hj2) as (l & Hl & Hl').
    rewrite Hl1, Hl in *. simpl in Hn. subst l1.
    rewrite (has_support_scan_scope σ c) by done.
    by apply (has_support_scan_absorb σ c l t (S n)).
Qed.

Lemma add_present_tuples_again c (tuples : list (list V)) :
  index_complete c → Forall (λ t, t ∈ sat_tuples c) tuples →
  sat_tuples (post (add_satisfying_tuples c tuples)) = sat_tuples c ∧
  ∀ σ var val, has_support σ (post (add_satisfying_tuples c tuples)) var val
               = has_support σ c var val.
Proof.
  revert c. induction tuples as [|t rest IH]; intros c Hc Hall; [done|].
  apply Forall_cons in Hall as [Ht Hrest].
  destruct (add_present_tuple_again c t Hc Ht) as [Hsat Hsup].
  rewrite add_satisfying_tuples_cons. case_decide; [|done].
  destruct (IH (post (add_satisfying_tuple c t))) as [Hsat' Hsup'].
  - by apply add_satisfying_tuple_complete.
  - by rewrite Hsat.
  - split; [congruence|]. intros σ var val. by rewrite Hsup', Hsup.
Qed.

(** C4 (amended).  For a constraint built by any calls of
    [add_satisfying_tuples], a further call whose tuples are all in the
    table already leaves the table as it is, and leaves the result of
    [check] on every value list and of [has_support] on every variable,
    value and state of the variables as it is. *)
Theorem add_satisfying_tuples_idempotent c (tuples : list (list V)) :
  built any_tuple c → Forall (λ t, t ∈ sat_tuples c) tuples →
  let c' := post (add_satisfying_tuples c tuples) in
  sat_tuples c' = sat_tuples c ∧
  (∀ vals, check c' vals = check c vals) ∧
  (∀ σ var val, has_support σ c' var val = has_support σ c var val).
Proof.
  intros [_ Hc]%built_invariants Hall c'.
  destruct (add_present_tuples_again c tuples Hc Hall) as [Hsat Hsup].
  split; [done|]. split; [|done]. intros vals. unfold check. subst c'. by rewrite Hsat.
Qed.

(** *** Validity of a tuple that is not shorter than the scope *)

Lemma tuple_is_valid_scan_sized σ t (i : nat) sc :
  (∀ y, y ∈ sc → var_wf (σ y)) → i + length sc ≤ length t →
  ∃ b, tuple_is_valid_scan σ t i sc = Returned b ∧
       (b = true ↔ ∀ j var val, sc !! j = Some var → t !! (i + j) = Some val →
                     by_in_cur_domain (σ var) val).
Proof.
  revert i. induction sc as [|var sc IH]; intros i Hwf Hlen; simpl in *.
  { exists true. split; [done|]. split; [|done]. intros _ j var val Hs. by rewrite lookup_nil in Hs. }
  destruct (lookup_lt_is_Some_2 t i) as [val Hval]; [lia|].
  unfold list_get. rewrite Hval. simpl.
  destruct (in_cur_domain_returns (σ var) val) as [b0 Hb0]; [apply Hwf; set_solver|].
  rewrite Hb0. simpl. destruct b0.
  - destruct (IH (S i)) as (b & Hb & Hiff); [intros; apply Hwf; set_solver|lia|].
    exists b. split; [done|]. rewrite Hiff. split.
    + intros Hall [|j] var' val'; simpl.
      * rewrite Nat.add_0_r. intros [= <-] Hv. rewrite Hval in Hv. by injection Hv as <-.
      * rewrite Nat.add_succ_r. apply Hall.
    + intros Hall j var' val' Hs Ht. apply (Hall (S j)); [done|].
      by rewrite Nat.add_succ_r.
  - exists false. split; [done|]. split; [done|]. intros Hall.
    specialize (Hall 0 var val eq_refl). rewrite Nat.add_0_r in Hall.
    specialize (Hall Hval). unfold by_in_cur_domain in Hall. congruence.
Qed.

Lemma tuple_is_valid_sized σ c t :
  (∀ y, y ∈ scope c → var_wf (σ y)) → length (scope c) ≤ length t →
  ∃ b, tuple_is_valid σ c t = Returned b ∧
       (b = true ↔ supported_by by_in_cur_domain σ c t).
Proof.
  intros Hwf Hlen. unfold tuple_is_valid, supported_by.
  destruct (tuple_is_valid_scan_sized σ t 0 (scope c)) as (b & Hb & Hiff); [done|lia|].
  exists b. split; [done|]. by rewrite Hiff.
Qed.

Lemma has_support_scan_sized σ c l :
  (∀ y, y ∈ scope c → var_wf (σ y)) →
  (∀ t, t ∈ l → length (scope c) ≤ length t) →
  ∃ b, has_support_scan σ c l = Returned b ∧
       (b = true ↔ ∃ t, t ∈ l ∧ supported_by by_in_cur_domain σ c t).
Proof.
  intros Hwf. induction l as [|t l IH]; intros Hlen; simpl.
  { exists false. split; [done|]. split; [done|]. intros (t & Hin & _).
    by apply elem_of_nil in Hin. }
  destruct (tuple_is_valid_sized σ c t Hwf) as (b0 & Hb0 & Hiff0); [apply Hlen; set_solver|].
  rewrite Hb0. simpl. destruct b0.
  - exists true. split; [done|]. split; [|done]. intros _. exists t.
    split; [set_solver|]. by apply Hiff0.
  - destruct IH as (b & Hb & Hiff); [intros; apply Hlen; set_solver|].
    exists b. split; [done|]. rewrite Hiff. split.
    + intros (t' & ? & ?). exists t'. split; [set_solver|done].
    + intros (t' & [->|Hin]%elem_of_cons & Hs); [|by exists t'].
      apply Hiff0 in Hs. done.
Qed.

Lemma supported_by_equiv (m1 m2 : Var V → V → Prop) σ c t :
  (∀ y val, y ∈ scope c → m1 (σ y) val ↔ m2 (σ y) val) →
  supported_by m1 σ c t ↔ supported_by m2 σ c t.
Proof.
  intros Heq. unfold supported_by. split; intros Hall i var val Hs Ht.
  - apply Heq; [by eapply list_elem_of_lookup_2|]. by eapply Hall.
  - apply Heq; [by eapply list_elem_of_lookup_2|]. by eapply Hall.
Qed.

(** C1 (amended).  For a constraint built by calls of
    [add_satisfying_tuples] none of whose tuples is shorter than the scope
    (so: when they all have the length of the scope), and scope variables
    in any reachable states: [has_support(x, v)] returns, and it returns
    true exactly when some tuple of the table gives [v] to [x] and has every
    value accepted by [in_cur_domain] of the scope variable at its position.  When no scope variable has a value twice in
    its domain, that is the same as every value being in the list
    [cur_domain()] of its variable. *)
Theorem has_support_brute_force σ c (x : var_ref) (v : V) :
  built scope_covering c →
  (∀ y, y ∈ scope c → reachable_var (σ y)) →
  ∃ b, has_support σ c x v = Returned b ∧
       (b = true ↔ spec_has_support by_in_cur_domain σ c x v) ∧
       ((∀ y, y ∈ scope c → NoDup (dom (σ y))) →
        (b = true ↔ spec_has_support by_cur_domain σ c x v)).
Proof.
  intros Hbuilt Hreach.
  assert (∀ y, y ∈ scope c → var_wf (σ y)) as Hwf
    by (intros; by apply reachable_var_wf, Hreach).
  pose proof (built_table_of _ c Hbuilt) as Hsized.
  destruct (built_invariants _ c Hbuilt) as [Hsound Hcomplete].
  assert (∃ b, has_support σ c x v = Returned b ∧
               (b = true ↔ spec_has_support by_in_cur_domain σ c x v))
    as (b & Hb & Hiff).
  { unfold has_support, spec_has_support.
    destruct (sup_tuples c !! (x, v)) as [l|] eqn:El.
    - destruct (has_support_scan_sized σ c l Hwf) as (b & Hb & Hiff).
      { intros t Hin. apply Hsized. by apply (Hsound _ _ _ El Hin). }
      exists b. split; [done|]. rewrite Hiff. split.
      + intros (t & Hin & Hs). exists t.
        destruct (Hsound _ _ _ El Hin) as [? ?]. done.
      + intros (t & Hin & (i & Hi1 & Hi2) & Hs). exists t. split; [|done].
        destruct (Hcomplete t i x v Hin Hi1 Hi2) as (l' & Hl' & ?). congruence.
    - exists false. split; [done|]. split; [done|].
      intros (t & Hin & (i & Hi1 & Hi2) & Hs).
      destruct (Hcomplete t i x v Hin Hi1 Hi2) as (l' & Hl' & ?). congruence. }
  exists b. split; [done|]. split; [done|]. intros Hnd. rewrite Hiff.
  unfold spec_has_support. f_equiv. intros t.
  rewrite (supported_by_equiv by_in_cur_domain by_cur_domain); [done|].
  intros y val Hy. split.
  - apply in_cur_domain_sound. by apply Hwf.
  - apply in_cur_domain_complete; [by apply Hwf|by apply Hnd].
Qed.

Lemma add_satisfying_tuples_ret c (tuples : list (list V)) :
  ret (add_satisfying_tuples c tuples) =
  if decide (Forall (λ t, length t ≤ length (scope c)) tuples) then Returned tt
  else Raised IndexError.
Proof.
  revert c. induction tuples as [|t rest IH]; intros c.
  { destruct (decide _) as [|Hn]; [done|]. by destruct Hn. }
  rewrite add_satisfying_tuples_cons.
  destruct (add_satisfying_tuple_fields c t) as (_ & Hsc & _ & _ & Hret & _).
  destruct (decide (length t ≤ length (scope c))) as [Ht|Ht].
  - rewrite IH, Hsc.
    destruct (decide (Forall _ rest)) as [Hr|Hr];
      destruct (decide (Forall _ (t :: rest))) as [Hc|Hc]; try done.
    + exfalso. apply Hc. apply Forall_cons. split; assumption.
    + exfalso. by inversion Hc.
  - rewrite Hret. destruct (decide (length t ≤ length (scope c))); [done|].
    destruct (decide (Forall _ (t :: rest))) as [Hc|Hc]; [|done].
    by inversion Hc.
Qed.

(** C7 (amended).  [add_satisfying_tuples] raises exactly when one of the
    tuples is longer than the scope (the [IndexError] of [self.scope[i]]),
    and returns otherwise; when every tuple passed has the length of the
    scope and so has every tuple of the table, the call returns and every
    tuple of the table still has the length of the scope. *)
Theorem add_satisfying_tuples_arity c (tuples : list (list V)) :
  let r := add_satisfying_tuples c tuples in
  (Forall (λ t, length t ≤ length (scope c)) tuples → ret r = Returned tt) ∧
  (¬ Forall (λ t, length t ≤ length (scope c)) tuples →
   fails_with r ScopeArityMismatch) ∧
  (Forall (scope_sized (scope c)) tuples → table_of scope_sized c →
   ret r = Returned tt ∧ table_of scope_sized (post r)).
Proof.
  intros r. subst r. unfold fails_with. simpl.
  rewrite add_satisfying_tuples_ret. split; [|split].
  - intros Hall. by rewrite decide_True.
  - intros Hnot. by rewrite decide_False.
  - intros Hall Hs. split.
    + rewrite decide_True; [done|]. eapply Forall_impl; [exact Hall|].
      unfold scope_sized. simpl. lia.
    + by apply add_satisfying_tuples_invariants.
Qed.
End SupportFacts.

(** A "not equal" constraint over the variables 0 and 1, both with domain
    [1, 2]. *)
Lemma has_support_brute_force_witness :
  let c := post (add_satisfying_tuples (Constraint_init "neq" [0; 1]) [[1; 2]; [2; 1]]) in
  let σ : var_store nat := fun _ => Variable_init "X" [1; 2] in
  has_support σ c 0 1 = Returned true ∧
  ∃ b, has_support σ c 0 1 = Returned b ∧
       (b = true ↔ spec_has_support by_in_cur_domain σ c 0 1) ∧
       ((∀ y, y ∈ scope c → NoDup (dom (σ y))) →
        (b = true ↔ spec_has_support by_cur_domain σ c 0 1)).
Proof.
  intros c σ. split; [reflexivity|].
  apply (has_support_brute_force σ c 0 1).
  - apply built_add; [apply built_init|]. repeat constructor.
  - intros y _. apply reachable_var_init.
Defined.

(** C1 as stated fails here.  Scope [0, 1] and the tuple [(1,)], one value
    short: the tuple is in the table, gives 1 to variable 0, and its only
    value is in the current domain of its variable; [has_support(0, 1)]
    raises [IndexError] at [t[1]]. *)
Lemma has_support_raises_on_short_tuple :
  let c := post (add_satisfying_tuples (Constraint_init "C" [0; 1]) [[1]]) in
  let σ : var_store nat := fun _ => Variable_init "X" [1] in
  built any_tuple c ∧ (∀ y, reachable_var (σ y)) ∧ 0 ∈ scope c ∧
  spec_has_support by_in_cur_domain σ c 0 1 ∧
  spec_has_support by_cur_domain σ c 0 1 ∧
  has_support σ c 0 1 = Raised IndexError ∧
  has_support σ c 0 1 ≠ Returned true.
Proof.
  intros c σ.
  assert (∀ member : Var nat → nat → Prop,
            member (Variable_init "X" [1]) 1 → spec_has_support member σ c 0 1) as Hspec.
  { intros member Hm. exists [1]. split; [compute_done|]. split.
    - exists 0. done.
    - intros [|[|i]] var val; simpl; intros Hs Ht; by simplify_eq. }
  split; [apply built_add; [apply built_init|repeat constructor]|].
  split; [intros y; apply reachable_var_init|].
  split; [compute_done|].
  split; [apply Hspec; reflexivity|].
  split; [apply Hspec; exists [1]; split; [reflexivity|compute_done]|].
  split; [reflexivity|]. by vm_compute.
Qed.

(** The "not equal" table over two variables, and [(2, 1)] added again. *)
Lemma add_satisfying_tuples_idempotent_witness :
  let c := post (add_satisfying_tuples (Constraint_init "C" [0; 1]) [[1; 2]; [2; 1]]) in
  let c' := post (add_satisfying_tuples c [[2; 1]]) in
  sat_tuples c' = sat_tuples c ∧
  (∀ vals, check c' vals = check c vals) ∧
  (∀ (σ : var_store nat) var val, has_support σ c' var val = has_support σ c var val).
Proof.
  intros c. apply (add_satisfying_tuples_idempotent c [[2; 1]]).
  - apply built_add; [apply built_init|repeat constructor].
  - constructor; [compute_done|constructor].
Defined.

(** C4 as stated fails here.  Scope [0] and the tuple [(1,)] added twice:
    the entry of the support index for (variable 0, value 1) lists the
    tuple twice. *)
Lemma second_add_extends_support_index :
  let c := post (add_satisfying_tuples (Constraint_init "C" [0]) [[1]]) in
  let c' := post (add_satisfying_tuples c [[1]]) in
  [1] ∈ sat_tuples c ∧
  sup_tuples c !! (0, 1) = Some [[1]] ∧
  sup_tuples c' !! (0, 1) = Some [[1]; [1]] ∧
  sup_tuples c' ≠ sup_tuples c.
Proof.
  intros c c'. split; [compute_done|]. split; [reflexivity|]. split; [reflexivity|].
  intros Heq. apply (f_equal (fun m => m !! (0, 1))) in Heq. by vm_compute in Heq.
Qed.

(** C7 as stated fails here.  Scope [0, 1]: the tuple [(5,)] is stored
    without any failure; the tuple [(5, 6, 7)] raises [IndexError], and is
    in the table afterwards. *)
Lemma wrong_length_tuples_are_stored :
  let c := Constraint_init "C" [0; 1] in
  let short := add_satisfying_tuples c [[5]] in
  let long := add_satisfying_tuples c [[5; 6; 7]] in
  length [5] ≠ length (scope c) ∧
  ret short = Returned tt ∧ out short = [] ∧
  ¬ fails_with short ScopeArityMismatch ∧
  [5] ∈ sat_tuples (post short) ∧ ¬ table_of scope_sized (post short) ∧
  ret long = Raised IndexError ∧ [5; 6; 7] ∈ sat_tuples (post long).
Proof.
  intros c short long.
  assert ([5] ∈ sat_tuples (post short)) as Hin by compute_done.
  split; [by vm_compute|]. split; [reflexivity|]. split; [reflexivity|].
  split; [by vm_compute|]. split; [done|].
  split; [intros Hs; by specialize (Hs [5] Hin)|].
  split; [reflexivity|compute_done].
Qed.

(** ** Constraint: what [check] accepts *)

Section CheckFacts.
Context {V : Type} `{Countable V}.
Implicit Types (c : Constraint V) (t : list V).

Lemma add_satisfying_tuples_table c (tuples : list (list V)) :
  ret (add_satisfying_tuples c tuples) = Returned tt →
  sat_tuples (post (add_satisfying_tuples c tuples)) = list_to_set tuples ∪ sat_tuples c.
Proof.
  revert c. induction tuples as [|t rest IH]; intros c.
  { intros _. simpl. set_solver. }
  rewrite add_satisfying_tuples_cons.
  destruct (add_satisfying_tuple_fields c t) as (_ & _ & Hsat & _ & Hret & _).
  destruct (decide (length t ≤ length (scope c))) as [Hlen|Hlen].
  - intros Hr. rewrite (IH _ Hr), Hsat. set_solver.
  - by rewrite Hret.
Qed.

(** X2.  A new constraint accepts no value list; after a call of
    [add_satisfying_tuples] that returns, [check] accepts exactly the value
    lists it accepted before and the tuples of the call. *)
Theorem check_iff_added c (tuples : list (list V)) (vals : list V) :
  (∀ nm sc, check (Constraint_init nm sc) vals = false) ∧
  (ret (add_satisfying_tuples c tuples) = Returned tt →
   (check (post (add_satisfying_tuples c tuples)) vals = true ↔
    check c vals = true ∨ vals ∈ tuples)).
Proof.
  split.
  - intros nm sc. unfold check. simpl. apply bool_decide_eq_false_2. set_solver.
  - intros Hr. unfold check. rewrite !bool_decide_eq_true.
    rewrite (add_satisfying_tuples_table c tuples Hr). set_solver.
Qed.
End CheckFacts.

(** ** CSP: registering variables and constraints *)

Lemma index_constraint_dom (c : cons_ref) (sc : list var_ref)
    (m : gmap var_ref (list cons_ref)) (x : var_ref) :
  is_Some ((index_constraint c sc m).1 !! x) ↔ is_Some (m !! x).
Proof.
  revert m. induction sc as [|v sc IH]; intros m; simpl; [done|].
  destruct (m !! v) as [l|] eqn:E; simpl; [|done].
  rewrite IH. destruct (decide (v = x)) as [->|Hne].
  - rewrite lookup_insert_eq, E. split; by eexists.
  - by rewrite lookup_insert_ne.
Qed.

Lemma index_constraint_completed (c : cons_ref) (sc : list var_ref)
    (m : gmap var_ref (list cons_ref)) :
  (index_constraint c sc m).2 = true ↔ ∀ v, v ∈ sc → is_Some (m !! v).
Proof.
  revert m. induction sc as [|v sc IH]; intros m; simpl.
  { split; [|done]. intros _ v Hv. by apply elem_of_nil in Hv. }
  destruct (m !! v) as [l|] eqn:E; simpl.
  - rewrite IH. split.
    + intros Hall x [->|Hx]%elem_of_cons; [by eexists|].
      specialize (Hall x Hx). destruct (decide (v = x)) as [->|Hne]; [by eexists|].
      by rewrite lookup_insert_ne in Hall.
    + intros Hall x Hx. destruct (decide (v = x)) as [->|Hne].
      * rewrite lookup_insert_eq. by eexists.
      * rewrite lookup_insert_ne by done. apply Hall. set_solver.
  - split; [done|]. intros Hall. destruct (Hall v) as [? ?]; [set_solver|congruence].
Qed.

(** Each entry gets the constraint appended once for every occurrence of
    its variable in the part of the scope that the loop went through. *)
Lemma index_constraint_entries (c : cons_ref) (sc : list var_ref)
    (m : gmap var_ref (list cons_ref)) (x : var_ref) (l : list cons_ref) :
  m !! x = Some l →
  ∃ n, (index_constraint c sc m).1 !! x = Some (l ++ replicate n c) ∧
       (0 < n → x ∈ sc) ∧
       ((index_constraint c sc m).2 = true → x ∈ sc → 0 < n).
Proof.
  revert m l. induction sc as [|v sc IH]; intros m l Hx; simpl.
  { exists 0. simpl. rewrite app_nil_r. split; [done|]. split; [lia|].
    intros _ Hin. by apply elem_of_nil in Hin. }
  destruct (m !! v) as [lv|] eqn:E; simpl.
  - destruct (decide (v = x)) as [->|Hne].
    + assert (lv = l) as -> by congruence.
      destruct (IH (<[x:=l ++ [c]]> m) (l ++ [c])) as (n & Hn & _ & _).
      { by rewrite lookup_insert_eq. }
      exists (S n). rewrite Hn. simpl. rewrite <- app_assoc. simpl.
      split; [done|]. split; [intros _; set_solver|lia].
    + destruct (IH (<[v:=lv ++ [c]]> m) l) as (n & Hn & Hp & Hq).
      { by rewrite lookup_insert_ne. }
      exists n. split; [done|]. split; [intros ?; set_solver|].
      intros Hb [?|Hin]%elem_of_cons; [done|]. by apply Hq.
  - exists 0. simpl. rewrite app_nil_r. split; [done|]. split; [lia|done].
Qed.

Section CSPFacts.
Context {V : Type} `{Countable V}.
Implicit Types (κ : cons_store V) (p : CSP) (c : cons_ref) (x v : var_ref).

Lemma add_var_wf p (o : pyobj) : csp_wf p → csp_wf (post (add_var p o)).
Proof.
  unfold csp_wf. intros Hwf. destruct o as [x| |]; simpl; try done.
  case_decide as Hx; simpl; [done|].
  intros y. simpl. rewrite elem_of_app, list_elem_of_singleton, Hwf.
  destruct (decide (x = y)) as [->|Hne].
  - rewrite lookup_insert_eq. split; [by eexists|auto].
  - rewrite lookup_insert_ne by done. naive_solver.
Qed.

Lemma add_constraint_fields κ p c :
  let r := add_constraint κ p (PyConstraint c) in
  csp_name (post r) = csp_name p ∧ vars (post r) = vars p ∧
  vars_to_cons (post r) = (index_constraint c (scope (κ c)) (vars_to_cons p)).1 ∧
  (if (index_constraint c (scope (κ c)) (vars_to_cons p)).2
   then cons (post r) = cons p ++ [c] ∧ out r = []
   else cons (post r) = cons p ∧ out r = [UnknownVariables]) ∧
  ret r = Returned tt.
Proof.
  simpl. destruct (index_constraint c (scope (κ c)) (vars_to_cons p)) as [m []]; done.
Qed.

Lemma add_constraint_wf κ p (o : pyobj) :
  csp_wf p → csp_wf (post (add_constraint κ p o)).
Proof.
  unfold csp_wf. intros Hwf. destruct o as [|c|]; try done.
  destruct (add_constraint_fields κ p c) as (_ & Hv & Hm & _).
  intros y. rewrite Hv, Hm, index_constraint_dom. apply Hwf.
Qed.

Lemma reachable_csp_wf κ p : reachable_csp κ p → csp_wf p.
Proof.
  induction 1 as [nm vs|p o _ IH].
  - unfold CSP_init.
    assert (csp_wf (MkCSP nm [] [] ∅)) as H0.
    { intros x. simpl. rewrite lookup_empty. split; [by intros ?%elem_of_nil|].
      by intros [? ?]. }
    revert H0. generalize (MkCSP nm [] [] ∅).
    induction vs as [|o vs IH]; intros p Hp; simpl; [done|].
    by apply IH, add_var_wf.
  - destruct o; simpl; [by apply add_var_wf|by apply add_constraint_wf].
Qed.

(** C5.  For a CSP reached by any calls of [add_var] and [add_constraint]:
    adding a constraint whose scope has a variable that is not registered
    prints the "unknown variables" line and leaves the constraint list as it
    was; adding one whose scope variables are all registered prints nothing,
    appends it to the constraint list, and afterwards
    [get_cons_with_var(v)] lists it for every variable [v] of its scope. *)
Theorem add_constraint_unknown_variable κ p c :
  reachable_csp κ p →
  let r := add_constraint κ p (PyConstraint c) in
  ((∃ v, v ∈ scope (κ c) ∧ v ∉ get_all_vars p) →
     fails_with r UnknownVariableInScope ∧
     get_all_cons (post r) = get_all_cons p) ∧
  ((∀ v, v ∈ scope (κ c) → v ∈ get_all_vars p) →
     out r = [] ∧ get_all_cons (post r) = get_all_cons p ++ [c] ∧
     ∀ v, v ∈ scope (κ c) →
       ∃ l, get_cons_with_var (post r) v = Returned l ∧ c ∈ l).
Proof.
  intros Hwf%reachable_csp_wf r.
  destruct (add_constraint_fields κ p c) as (_ & _ & Hm & Hcons & _).
  fold r in Hm, Hcons. unfold get_all_cons, get_all_vars, get_cons_with_var.
  destruct (index_constraint c (scope (κ c)) (vars_to_cons p)).2 eqn:Hb.
  - pose proof (proj1 (index_constraint_completed _ _ _) Hb) as Hall.
    destruct Hcons as [Hc Ho]. split.
    + intros (v & Hv & Hnot). exfalso. apply Hnot, Hwf, Hall, Hv.
    + intros _. split; [done|]. split; [done|]. intros v Hv.
      destruct (Hall v Hv) as [l Hl].
      destruct (index_constraint_entries c (scope (κ c)) _ v l Hl) as (n & Hn & _ & Hpos).
      rewrite Hm, Hn. eexists. split; [done|].
      apply elem_of_app. right. apply elem_of_replicate. split; [done|].
      specialize (Hpos Hb Hv). lia.
  - destruct Hcons as [Hc Ho]. split.
    + intros _. split; [|done]. unfold fails_with. simpl. done.
    + intros Hall. exfalso.
      assert ((index_constraint c (scope (κ c)) (vars_to_cons p)).2 = true) as Ht.
      { apply index_constraint_completed. intros v Hv. by apply Hwf, Hall. }
      congruence.
Qed.
End CSPFacts.

(** A constraint with scope [0, 1] added to a CSP that has variable 0
    only, and to one that has both. *)
Lemma add_constraint_unknown_variable_witness :
  let κ : cons_store nat := fun _ => Constraint_init "C" [0; 1] in
  let p := CSP_init "P" [PyVariable 0] in
  let q := CSP_init "P" [PyVariable 0; PyVariable 1] in
  (out (add_constraint κ p (PyConstraint 7)) = [UnknownVariables] ∧
   get_all_cons (post (add_constraint κ p (PyConstraint 7))) = get_all_cons p) ∧
  (out (add_constraint κ q (PyConstraint 7)) = [] ∧
   get_all_cons (post (add_constraint κ q (PyConstraint 7))) = get_all_cons q ++ [7] ∧
   ∀ v, v ∈ scope (κ 7) →
     ∃ l, get_cons_with_var (post (add_constraint κ q (PyConstraint 7))) v = Returned l
          ∧ 7 ∈ l).
Proof.
  intros κ p q. split.
  - apply (add_constraint_unknown_variable κ p 7); [apply reachable_csp_init|].
    exists 1. split; compute_done.
  - apply (add_constraint_unknown_variable κ q 7); [apply reachable_csp_init|].
    intros v Hv. simpl in Hv.
    apply elem_of_cons in Hv as [->|Hv]; [compute_done|].
    apply elem_of_cons in Hv as [->|Hv]; [compute_done|].
    by apply elem_of_nil in Hv.
Defined.

(** C6, the code at the failing input.  Variable 0 is registered, variable
    1 is not; [add_constraint] of a constraint with scope [0, 1] is
    rejected, and the constraint stays in the index entry of variable 0
    while the constraint list is empty. *)
Lemma rejected_constraint_stays_indexed :
  let κ : cons_store nat := fun _ => Constraint_init "C" [0; 1] in
  let p := csp_step κ (CSP_init "P" [PyVariable 0]) (OpAddConstraint (PyConstraint 7)) in
  reachable_csp κ p ∧ 0 ∈ get_all_vars p ∧
  get_all_cons p = [] ∧ cons_over κ p 0 = [] ∧
  get_cons_with_var p 0 = Returned [7].
Proof.
  intros κ p. split; [apply reachable_csp_step, reachable_csp_init|].
  split; [compute_done|]. split; [reflexivity|]. split; reflexivity.
Qed.

Section CSPIndex.
Context {V : Type} `{Countable V}.
Implicit Types (κ : cons_store V) (p : CSP) (c : cons_ref) (x v : var_ref).

Lemma add_var_agrees κ p (o : pyobj) :
  index_agrees κ p → index_agrees κ (post (add_var p o)).
Proof.
  intros [HK HJ]. destruct o as [x| |]; simpl; try done.
  case_decide as Hx; simpl; [done|]. split; simpl.
  - intros c v Hc Hv. destruct (decide (x = v)) as [->|Hne].
    + rewrite lookup_insert_eq. by eexists.
    + rewrite lookup_insert_ne by done. by eapply HK.
  - intros v l. destruct (decide (x = v)) as [->|Hne].
    + rewrite lookup_insert_eq. intros [= <-] c. split; [by intros ?%elem_of_nil|].
      intros [Hc Hv]. exfalso. apply Hx. by eapply HK.
    + rewrite lookup_insert_ne by done. apply HJ.
Qed.

Lemma add_constraint_agrees κ p (o : pyobj) :
  csp_wf p → ¬ rejected κ p (OpAddConstraint o) →
  index_agrees κ p → index_agrees κ (post (add_constraint κ p o)).
Proof.
  intros Hwf Hrej [HK HJ]. destruct o as [|c|]; try done.
  destruct (add_constraint_fields κ p c) as (_ & _ & Hm & Hcons & _).
  assert ((index_constraint c (scope (κ c)) (vars_to_cons p)).2 = true) as Hb.
  { apply index_constraint_completed. intros v Hv. apply Hwf.
    destruct (decide (v ∈ vars p)) as [|Hnot]; [done|].
    exfalso. apply Hrej. by exists c, v. }
  rewrite Hb in Hcons. destruct Hcons as [Hc _]. split.
  - intros c' v. rewrite Hc, Hm, index_constraint_dom, elem_of_app, list_elem_of_singleton.
    intros [Hold| ->] Hv; [by eapply HK|].
    by apply (proj1 (index_constraint_completed _ _ _) Hb).
  - intros v l. rewrite Hm. intros Hl c'.
    assert (is_Some (vars_to_cons p !! v)) as [l0 Hl0].
    { apply (index_constraint_dom c (scope (κ c))). by eexists. }
    destruct (index_constraint_entries c (scope (κ c)) _ v l0 Hl0) as (n & Hn & Hp & Hq).
    rewrite Hn in Hl. injection Hl as <-.
    rewrite Hc, !elem_of_app, list_elem_of_singleton, elem_of_replicate, (HJ v l0 Hl0 c').
    split.
    + intros [[? ?]|[-> Hn0]]; [by auto|]. split; [by right|]. apply Hp. lia.
    + intros [[?| ->] Hv]; [by left|]. right. split; [done|].
      specialize (Hq Hb Hv). lia.
Qed.

Lemma reachable_unrejected_reachable κ p :
  reachable_unrejected κ p → reachable_csp κ p.
Proof. induction 1; by constructor. Qed.

(** X17.  Without rejected constraints the index is the one the
    specification describes: the entry of a variable lists the constraints
    of the constraint list whose scope contains the variable. *)
Lemma unrejected_index_agrees κ p v (l : list cons_ref) :
  reachable_unrejected κ p → get_cons_with_var p v = Returned l →
  ∀ c, c ∈ l ↔ c ∈ cons_over κ p v.
Proof.
  intros Hreach Hget.
  assert (index_agrees κ p) as [_ HJ].
  { clear Hget. induction Hreach as [nm vs|p o Hreach IH Hrej].
    - unfold CSP_init.
      assert (index_agrees κ (MkCSP nm [] [] ∅)) as H0.
      { split; simpl.
        - intros c x Hc. by apply elem_of_nil in Hc.
        - intros x l0 Hl0. by rewrite lookup_empty in Hl0. }
      revert H0. generalize (MkCSP nm [] [] ∅).
      induction vs as [|o vs IHvs]; intros q Hq; simpl; [done|].
      by apply IHvs, add_var_agrees.
    - destruct o as [o|o]; simpl.
      + by apply add_var_agrees.
      + apply add_constraint_agrees; [|done..].
        by apply (reachable_csp_wf κ), reachable_unrejected_reachable. }
  unfold get_cons_with_var in Hget.
  destruct (vars_to_cons p !! v) as [l0|] eqn:E; [|done]. injection Hget as ->.
  intros c. unfold cons_over, get_all_cons. rewrite list_elem_of_filter.
  rewrite (HJ v l E c). tauto.
Qed.
End CSPIndex.

(** * Further properties of the code *)

(** ** Variable: domain and current domain *)

Section VariableMore.
Context {V : Type} `{EqDecision V}.
Implicit Types (s : Var V) (v w value : V) (d : list V) (m : list bool).

Lemma flagged_cons v d (b : bool) m :
  flagged (v :: d) (b :: m) = if b then v :: flagged d m else flagged d m.
Proof. unfold flagged. simpl. rewrite filter_cons. simpl. by destruct b. Qed.

Lemma flagged_app d1 d2 m1 m2 :
  length d1 = length m1 → flagged (d1 ++ d2) (m1 ++ m2) = flagged d1 m1 ++ flagged d2 m2.
Proof.
  revert m1. induction d1 as [|v d1 IH]; intros [|b m1] Hlen; simpl in *; try done.
  rewrite !flagged_cons, IH by lia. by destruct b.
Qed.

Lemma flagged_all d : flagged d (replicate (length d) true) = d.
Proof. induction d as [|v d IH]; simpl; [done|]. by rewrite flagged_cons, IH. Qed.

Lemma length_flagged d m :
  length d = length m →
  length (flagged d m) = length (filter (fun b => b = true) m).
Proof.
  revert m. induction d as [|v d IH]; intros [|b m] Hlen; simpl in *; try done.
  rewrite flagged_cons, filter_cons. destruct b; simpl; rewrite IH by lia; done.
Qed.

(** X3.  In every reachable state [cur_domain_size()] is the length of the
    list [cur_domain()], without building it, and it is at most
    [domain_size()]. *)
Theorem cur_domain_size_counts s :
  reachable_var s →
  ∃ l, cur_domain s = Returned l ∧ cur_domain_size s = length l ∧
       cur_domain_size s ≤ domain_size s.
Proof.
  intros Hwf%reachable_var_wf. pose proof Hwf as [Hlen Hasg].
  unfold cur_domain_size, domain_size.
  destruct (assignedValue s) as [a|] eqn:Ha.
  - exists [a]. unfold cur_domain, get_assigned_value, is_assigned. rewrite Ha.
    split; [done|]. split; [done|]. simpl.
    specialize (Hasg a eq_refl). destruct (dom s); [by apply elem_of_nil in Hasg|].
    simpl. lia.
  - assert (is_assigned s = false) as Hun by (unfold is_assigned; by rewrite Ha).
    exists (flagged (dom s) (curdom s)). rewrite Hun.
    split; [by apply cur_domain_unassigned|].
    rewrite length_flagged by done. split; [done|].
    rewrite <- Hlen. apply length_filter.
Qed.

Lemma list_index_app_l (x : V) (l k : list V) :
  x ∈ l → list_index x (l ++ k) = list_index x l.
Proof.
  induction l as [|y l IH]; simpl; [by intros ?%elem_of_nil|].
  destruct (decide (y = x)); [done|].
  intros [?|Hin]%elem_of_cons; [congruence|]. by rewrite IH.
Qed.

(** X4.  [add_domain_values(values)] appends the values to the domain and
    keeps the assignment.  In a reachable state it leaves the answer of
    [in_cur_domain] unchanged for every value that was in the domain; the
    list [cur_domain()] gets the new values at its end when the variable is
    not assigned, and stays as it is when the variable is assigned. *)
Theorem add_domain_values_extends s (values : list V) :
  reachable_var s →
  domain (add_domain_values s values) = domain s ++ values ∧
  get_assigned_value (add_domain_values s values) = get_assigned_value s ∧
  (∀ v, v ∈ domain s →
        in_cur_domain (add_domain_values s values) v = in_cur_domain s v) ∧
  (∀ l, cur_domain s = Returned l →
        cur_domain (add_domain_values s values)
        = Returned (if is_assigned s then l else l ++ values)).
Proof.
  intros Hwf%reachable_var_wf. pose proof Hwf as [Hlen Hasg].
  unfold domain, get_assigned_value.
  split; [apply add_domain_values_dom|].
  split; [apply add_domain_values_assigned|]. split.
  - intros v Hv. unfold in_cur_domain, get_assigned_value, value_index.
    rewrite add_domain_values_dom, add_domain_values_assigned, add_domain_values_curdom.
    rewrite decide_True by (apply elem_of_app; by left).
    rewrite decide_True by done.
    destruct (assignedValue s); [done|].
    rewrite list_index_app_l by done.
    destruct (list_index_elem v (dom s) Hv) as [i Hi]. rewrite Hi. simpl.
    unfold list_get. rewrite lookup_app_l; [done|].
    apply list_index_lookup, lookup_lt_Some in Hi. lia.
  - intros l Hl. unfold cur_domain, get_assigned_value, is_assigned in *.
    rewrite add_domain_values_assigned.
    destruct (assignedValue s) as [a|] eqn:Ha; [done|].
    assert (is_assigned s = false) as Hun by (unfold is_assigned; by rewrite Ha).
    pose proof (cur_domain_unassigned s Hwf Hun) as Hs.
    unfold cur_domain, get_assigned_value in Hs. rewrite Ha in Hs.
    rewrite Hs in Hl. injection Hl as <-.
    rewrite add_domain_values_dom, add_domain_values_curdom.
    rewrite (cur_domain_scan_flagged 0), drop_0.
    + rewrite flagged_app by done. by rewrite flagged_all.
    + rewrite drop_0, !length_app, length_replicate. lia.
Qed.

(** X5.  No operation on a variable removes or reorders domain values: after
    any calls, the domain starts with the domain before them. *)
Theorem domain_only_grows s (ops : list (var_op V)) :
  domain s `prefix_of` domain (foldl var_step s ops).
Proof.
  unfold domain. revert s. induction ops as [|o ops IH]; intros s; simpl; [done|].
  etrans; [|apply IH].
  destruct o as [values|value|value| |value| ]; simpl.
  - rewrite add_domain_values_dom. by apply prefix_app_r.
  - unfold prune_value.
    by destruct (store_flag_cases s value false) as [[_ ->]|(i & _ & [[_ ->]|[_ ->]])].
  - unfold unprune_value.
    by destruct (store_flag_cases s value true) as [[_ ->]|(i & _ & [[_ ->]|[_ ->]])].
  - done.
  - by destruct (assign_post s value) as [->|(_ & _ & ->)].
  - unfold unassign. by destruct (is_assigned s).
Qed.

Lemma count_insert_false m (i : nat) :
  m !! i = Some true →
  S (length (filter (fun b => b = true) (<[i:=false]> m)))
  = length (filter (fun b => b = true) m).
Proof.
  intros Hi. pose proof (lookup_lt_Some _ _ _ Hi) as Hlt.
  rewrite insert_take_drop by done.
  rewrite <- (take_drop_middle m i true Hi) at 3.
  rewrite !filter_app, !filter_cons, !length_app.
  rewrite decide_False by done. rewrite decide_True by done. simpl. lia.
Qed.

(** X6.  In a reachable state of a variable that is not assigned, for a
    value [v] that [in_cur_domain] accepts: [prune_value(v)] returns, makes
    [in_cur_domain(v)] false, leaves the answer for every other value as it
    was, and lowers [cur_domain_size()] by one; the [unprune_value(v)] that
    follows gives back the state before the two calls. *)
Theorem prune_unprune_round_trip s v :
  reachable_var s → is_assigned s = false → by_in_cur_domain s v →
  let r := prune_value s v in
  ret r = Returned tt ∧
  in_cur_domain (post r) v = Returned false ∧
  (∀ w, w ≠ v → in_cur_domain (post r) w = in_cur_domain s w) ∧
  S (cur_domain_size (post r)) = cur_domain_size s ∧
  post (unprune_value (post r) v) = s.
Proof.
  intros Hwf%reachable_var_wf Hun Hin r.
  apply in_cur_domain_unassigned in Hin as (i & Hi & Hm); [|done].
  pose proof (lookup_lt_Some _ _ _ Hm) as Hlt.
  pose proof (list_index_lookup _ _ _ Hi) as Hd.
  assert (r = done_with (set_curdom (<[i:=false]> (curdom s)) s)) as ->.
  { subst r. unfold prune_value, store_flag, value_index, list_set.
    rewrite Hi. by rewrite decide_True. }
  simpl. unfold is_assigned in Hun.
  destruct s as [nm d m [a|]]; simpl in *; [done|].
  split; [done|]. split; [|split; [|split]].
  - unfold in_cur_domain, value_index, list_get. simpl.
    rewrite decide_True by (by eapply list_elem_of_lookup_2).
    rewrite Hi. simpl. by rewrite list_lookup_insert_eq.
  - intros w Hw. unfold in_cur_domain, value_index, list_get. simpl.
    destruct (decide (w ∈ d)) as [Hwd|]; [|done].
    destruct (list_index_elem w d Hwd) as [j Hj]. rewrite Hj. simpl.
    rewrite list_lookup_insert_ne; [done|]. intros ->.
    apply list_index_lookup in Hj. congruence.
  - unfold cur_domain_size, is_assigned. simpl. by apply count_insert_false.
  - unfold unprune_value, store_flag, value_index, list_set. simpl.
    rewrite Hi. rewrite decide_True by (by rewrite length_insert). simpl.
    unfold set_curdom. simpl. f_equal.
    rewrite list_insert_insert_eq. by apply list_insert_id.
Qed.

(** X7.  Pruning does not depend on the assignment: [prune_value] and
    [unprune_value] keep the assigned value, leave [cur_domain()] of an
    assigned variable as it is, and give the same state whether [unassign()]
    is called before or after them. *)
Theorem prune_independent_of_assignment s v (b : bool) :
  let flag := if b then unprune_value else prune_value in
  get_assigned_value (post (flag s v)) = get_assigned_value s ∧
  (is_assigned s = true → cur_domain (post (flag s v)) = cur_domain s) ∧
  post (unassign (post (flag s v))) = post (flag (post (unassign s)) v).
Proof.
  intros flag.
  assert (flag = fun s v => store_flag s v b) as -> by (subst flag; by destruct b).
  unfold store_flag, value_index, list_set, unassign, is_assigned,
    cur_domain, get_assigned_value.
  destruct s as [nm d m [a|]]; simpl.
  - destruct (list_index v d) as [i|]; simpl; [|done].
    destruct (decide (i < length m)); simpl; done.
  - destruct (list_index v d) as [i|]; simpl; [|done].
    destruct (decide (i < length m)); simpl; done.
Qed.

(** X8.  In a reachable state of a variable that is not assigned, after
    [restore_curdom()] the list [cur_domain()] is the whole domain and
    [in_cur_domain] accepts every domain value. *)
Theorem restore_curdom_cur_domain s :
  reachable_var s → is_assigned s = false →
  cur_domain (restore_curdom s) = Returned (domain s) ∧
  ∀ v, v ∈ domain s → in_cur_domain (restore_curdom s) v = Returned true.
Proof.
  intros Hreach Hun. pose proof (reachable_var_wf s Hreach) as [Hlen Hasg].
  assert (reachable_var (restore_curdom s)) as Hreach'
    by apply (reachable_var_step s OpRestoreCurdom Hreach).
  pose proof (reachable_var_wf _ Hreach') as Hwf'.
  assert (is_assigned (restore_curdom s) = false) as Hun' by done.
  assert (cur_domain (restore_curdom s) = Returned (domain s)) as Hcur.
  { rewrite (cur_domain_unassigned _ Hwf' Hun'). rewrite restore_curdom_flags.
    unfold domain. simpl. by rewrite Hlen, flagged_all. }
  split; [done|]. intros v Hv.
  apply in_cur_domain_unassigned; [done|].
  destruct (list_index_elem v (dom s) Hv) as [i Hi]. exists i. split; [done|].
  rewrite restore_curdom_flags. apply lookup_replicate_2.
  apply list_index_lookup, lookup_lt_Some in Hi. lia.
Qed.
End VariableMore.

(** Domain [1, 2, 3] after [prune_value(2)]. *)
Lemma cur_domain_size_counts_witness :
  let s := foldl var_step (Variable_init "X" [1; 2; 3]) [OpPruneValue 2] in
  ∃ l, cur_domain s = Returned l ∧ cur_domain_size s = length l ∧
       cur_domain_size s ≤ domain_size s.
Proof. intros s. apply (cur_domain_size_counts s), reachable_var_run. Defined.

(** Domain [1, 2, 3] after [prune_value(2)], and the values 4 and 5 added. *)
Lemma add_domain_values_extends_witness :
  let s := foldl var_step (Variable_init "X" [1; 2; 3]) [OpPruneValue 2] in
  cur_domain (add_domain_values s [4; 5]) = Returned [1; 3; 4; 5] ∧
  in_cur_domain (add_domain_values s [4; 5]) 2 = Returned false.
Proof.
  intros s.
  destruct (add_domain_values_extends s [4; 5] (reachable_var_run _ _ _))
    as (_ & _ & Hin & Hcur).
  split.
  - apply (Hcur [1; 3]). reflexivity.
  - rewrite Hin; [reflexivity|compute_done].
Defined.

(** Domain [1, 2, 3] and the value 2. *)
Lemma prune_unprune_round_trip_witness :
  let s := Variable_init "X" [1; 2; 3] in
  cur_domain (post (prune_value s 2)) = Returned [1; 3] ∧
  in_cur_domain (post (prune_value s 2)) 2 = Returned false ∧
  post (unprune_value (post (prune_value s 2)) 2) = s.
Proof.
  intros s.
  destruct (prune_unprune_round_trip s 2) as (_ & H2 & _ & _ & H5).
  - apply reachable_var_init.
  - reflexivity.
  - reflexivity.
  - split; [reflexivity|]. split; [exact H2|exact H5].
Defined.

(** Domain [1, 2, 3] after [prune_value(2)] and [prune_value(3)]. *)
Lemma restore_curdom_cur_domain_witness :
  let s := foldl var_step (Variable_init "X" [1; 2; 3]) [OpPruneValue 2; OpPruneValue 3] in
  cur_domain s = Returned [1] ∧
  cur_domain (restore_curdom s) = Returned [1; 2; 3] ∧
  in_cur_domain (restore_curdom s) 3 = Returned true.
Proof.
  intros s. split; [reflexivity|].
  destruct (restore_curdom_cur_domain s) as [H1 H2].
  - apply reachable_var_run.
  - reflexivity.
  - split; [exact H1|]. apply H2. compute_done.
Defined.

(** ** Constraint: scope, table and support *)

Section ConstraintMore.
Context {V : Type} `{Countable V}.
Implicit Types (c : Constraint V) (t vals : list V) (σ : var_store V)
  (sc : list var_ref) (x y : var_ref).

Lemma get_n_unasgn_loop σ sc (n : nat) :
  foldl (fun n v => if is_assigned (σ v) then n else n + 1) n sc
  = n + length (filter (fun v => is_assigned (σ v) = false) sc).
Proof.
  revert n. induction sc as [|v sc IH]; intros n; simpl; [lia|].
  rewrite IH, filter_cons. destruct (is_assigned (σ v)); simpl; lia.
Qed.

Lemma get_unasgn_vars_loop σ sc (vs : list var_ref) :
  foldl (fun vs v => if is_assigned (σ v) then vs else vs ++ [v]) vs sc
  = vs ++ filter (fun v => is_assigned (σ v) = false) sc.
Proof.
  revert vs. induction sc as [|v sc IH]; intros vs; simpl; [by rewrite app_nil_r|].
  rewrite IH, filter_cons. destruct (is_assigned (σ v)); simpl; [done|].
  by rewrite <- app_assoc.
Qed.

(** X9.  [get_unasgn_vars()] is the scope without its assigned variables,
    in scope order; [get_n_unasgn()] is the length of that list, and it is 0
    exactly when every scope variable is assigned. *)
Theorem get_n_unasgn_counts σ c :
  get_unasgn_vars σ c = filter (fun v => is_assigned (σ v) = false) (scope c) ∧
  get_n_unasgn σ c = length (get_unasgn_vars σ c) ∧
  (get_n_unasgn σ c = 0 ↔ ∀ v, v ∈ scope c → is_assigned (σ v) = true).
Proof.
  unfold get_unasgn_vars, get_n_unasgn.
  rewrite get_unasgn_vars_loop, get_n_unasgn_loop. simpl.
  split; [done|]. split; [done|].
  rewrite length_zero_iff_nil. split.
  - intros Hnil v Hv. destruct (is_assigned (σ v)) eqn:E; [done|].
    assert (v ∈ filter (fun v => is_assigned (σ v) = false) (scope c)) as Hin
      by (by apply list_elem_of_filter).
    rewrite Hnil in Hin. by apply elem_of_nil in Hin.
  - intros Hall.
    destruct (filter (fun v => is_assigned (σ v) = false) (scope c)) as [|v l] eqn:E;
      [done|].
    assert (v ∈ filter (fun v => is_assigned (σ v) = false) (scope c)) as Hin
      by (rewrite E; set_solver).
    apply list_elem_of_filter in Hin as [Hf Hv]. rewrite (Hall v Hv) in Hf. done.
Qed.

(** X10.  For a constraint built by any calls of [add_satisfying_tuples],
    the support index agrees with the table: a tuple is listed under
    (variable, value) exactly when it is in the table and has the value at
    a position where the scope has the variable. *)
Theorem support_index_consistent c (var : var_ref) (val : V) t :
  built any_tuple c →
  (∃ l, sup_tuples c !! (var, val) = Some l ∧ t ∈ l) ↔
  t ∈ sat_tuples c ∧ gives c t var val.
Proof.
  intros [Hs Hc]%built_invariants. split.
  - intros (l & Hl & Hin). apply (Hs _ _ _ Hl Hin).
  - intros (Hin & i & Hi1 & Hi2). by apply (Hc t i).
Qed.

(** X11.  When every tuple added had the length of the scope, [check]
    refuses every value list of another length. *)
Theorem check_refuses_other_lengths c vals :
  built scope_sized c → length vals ≠ length (scope c) → check c vals = false.
Proof.
  intros Hs%built_table_of Hlen. unfold check. apply bool_decide_eq_false_2.
  intros Hin. apply Hlen. by apply Hs.
Qed.

(** X13.  Tuples can be added in several calls: when the call with the
    first tuples returns, one call with all the tuples has the effect of
    the two calls in sequence. *)
Theorem add_satisfying_tuples_app c (l1 l2 : list (list V)) :
  ret (add_satisfying_tuples c l1) = Returned tt →
  add_satisfying_tuples c (l1 ++ l2)
  = add_satisfying_tuples (post (add_satisfying_tuples c l1)) l2.
Proof.
  revert c. induction l1 as [|t l1 IH]; intros c; [done|].
  rewrite <- app_comm_cons, !add_satisfying_tuples_cons.
  destruct (decide (length t ≤ length (scope c))) as [Hlen|Hlen]; [apply IH|].
  destruct (add_satisfying_tuple_fields c t) as (_ & _ & _ & _ & Hret & _).
  rewrite Hret, decide_False by done. done.
Qed.

(** *** [tuple_is_valid] *)

Lemma tuple_is_valid_scan_rejected σ t (i j : nat) sc y val :
  (∀ x, x ∈ sc → var_wf (σ x)) →
  sc !! j = Some y → t !! (i + j) = Some val → ¬ by_in_cur_domain (σ y) val →
  tuple_is_valid_scan σ t i sc = Returned false.
Proof.
  revert i j. induction sc as [|x sc IH]; intros i j Hwf Hj Ht Hno; [done|].
  simpl. destruct (lookup_lt_is_Some_2 t i) as [v0 Hv0].
  { apply lookup_lt_Some in Ht. lia. }
  unfold list_get. rewrite Hv0. simpl.
  destruct (in_cur_domain_returns (σ x) v0) as [b Hb]; [apply Hwf; set_solver|].
  rewrite Hb. simpl. destruct b; [|done].
  destruct j as [|j]; simpl in Hj.
  - injection Hj as ->. rewrite Nat.add_0_r in Ht. exfalso. apply Hno.
    unfold by_in_cur_domain. congruence.
  - apply (IH (S i) j); [intros; apply Hwf; set_solver|done| |done].
    by rewrite Nat.add_succ_l, <- Nat.add_succ_r.
Qed.

Lemma tuple_is_valid_scan_short σ t (i : nat) sc :
  (∀ j y val, sc !! j = Some y → t !! (i + j) = Some val → by_in_cur_domain (σ y) val) →
  i ≤ length t → length t < i + length sc →
  tuple_is_valid_scan σ t i sc = Raised IndexError.
Proof.
  revert i. induction sc as [|x sc IH]; intros i Hall Hi Hlen; simpl in *; [lia|].
  unfold list_get. destruct (t !! i) as [v0|] eqn:Hv0; simpl; [|done].
  pose proof (Hall 0 x v0 eq_refl) as H0. rewrite Nat.add_0_r in H0.
  specialize (H0 Hv0). unfold by_in_cur_domain in H0. rewrite H0. simpl.
  apply lookup_lt_Some in Hv0. apply IH; [|lia..].
  intros j y val Hj Ht. apply (Hall (S j)); [done|]. by rewrite Nat.add_succ_r.
Qed.

Lemma first_rejected σ t (i : nat) sc :
  (∀ x, x ∈ sc → var_wf (σ x)) →
  (∃ j y val, sc !! j = Some y ∧ t !! (i + j) = Some val ∧
              ¬ by_in_cur_domain (σ y) val) ∨
  (∀ j y val, sc !! j = Some y → t !! (i + j) = Some val →
              by_in_cur_domain (σ y) val).
Proof.
  revert i. induction sc as [|x sc IH]; intros i Hwf.
  { right. intros j y val Hj. by rewrite lookup_nil in Hj. }
  destruct (IH (S i)) as [(j & y & val & Hj & Ht & Hr)|Hall];
    [intros; apply Hwf; set_solver| |].
  - left. exists (S j), y, val. split; [done|]. split; [|done].
    by rewrite Nat.add_succ_r.
  - destruct (t !! i) as [v0|] eqn:Hv0.
    + destruct (in_cur_domain_returns (σ x) v0) as [[] Hb]; [apply Hwf; set_solver| |].
      * right. intros [|j] y val; simpl.
        -- rewrite Nat.add_0_r. intros [= <-] Ht. unfold by_in_cur_domain. congruence.
        -- rewrite Nat.add_succ_r. apply Hall.
      * left. exists 0, x, v0. split; [done|]. rewrite Nat.add_0_r. split; [done|].
        unfold by_in_cur_domain. congruence.
    + right. intros [|j] y val; simpl.
      * rewrite Nat.add_0_r. congruence.
      * rewrite Nat.add_succ_r. apply Hall.
Qed.

(** X20.  With the scope variables in reachable states, [tuple_is_valid(t)]
    returns [False] when [in_cur_domain] refuses the value of [t] at some
    scope position.  When it accepts them all, [tuple_is_valid(t)] returns
    [True] for a tuple that is not shorter than the scope, and raises
    [IndexError] for a tuple that is shorter. *)
Theorem tuple_is_valid_cases σ c t :
  (∀ x, x ∈ scope c → reachable_var (σ x)) →
  (¬ supported_by by_in_cur_domain σ c t → tuple_is_valid σ c t = Returned false) ∧
  (supported_by by_in_cur_domain σ c t →
   tuple_is_valid σ c t =
   if decide (length (scope c) ≤ length t) then Returned true else Raised IndexError).
Proof.
  intros Hreach.
  assert (∀ x, x ∈ scope c → var_wf (σ x)) as Hwf
    by (intros; by apply reachable_var_wf, Hreach).
  unfold tuple_is_valid. split.
  - intros Hno.
    destruct (first_rejected σ t 0 (scope c) Hwf)
      as [(j & y & val & Hj & Ht & Hr)|Hall]; [|by destruct Hno].
    by apply (tuple_is_valid_scan_rejected σ t 0 j (scope c) y val).
  - intros Hall. case_decide as Hlen.
    + destruct (tuple_is_valid_scan_sized σ t 0 (scope c) Hwf) as (b & Hb & Hiff); [lia|].
      rewrite Hb. f_equal. apply Hiff. intros j y val Hj Ht. by apply (Hall j).
    + apply tuple_is_valid_scan_short; [|lia..].
      intros j y val Hj Ht. by apply (Hall j).
Qed.
End ConstraintMore.

Section AssignedScope.
Context {V : Type} `{Countable V}.
Implicit Types (c : Constraint V) (t vals : list V) (σ : var_store V).

(** With every scope variable assigned, the only tuple of the scope's
    length whose values are all in the current domains is the list of the
    assigned values. *)
Lemma supported_by_assigned σ c vals t :
  (∀ y, y ∈ scope c → var_wf (σ y)) →
  Forall2 (fun y a => get_assigned_value (σ y) = Some a) (scope c) vals →
  length t = length (scope c) →
  supported_by by_in_cur_domain σ c t ↔ t = vals.
Proof.
  intros Hwf Hf Hlen. pose proof (Forall2_length _ _ _ Hf) as Hlen'. split.
  - intros Hs. apply list_eq. intros j.
    destruct (scope c !! j) as [y|] eqn:Hy.
    + destruct (Forall2_lookup_l _ _ _ _ _ Hf Hy) as (a & Ha & Hasg).
      destruct (lookup_lt_is_Some_2 t j) as [a' Ha'].
      { apply lookup_lt_Some in Hy. lia. }
      rewrite Ha, Ha'. f_equal.
      apply (in_cur_domain_assigned (σ y) a' a); [done| |by apply (Hs j)].
      apply Hwf; [by eapply list_elem_of_lookup_2|done].
    + apply lookup_ge_None in Hy. rewrite !lookup_ge_None_2; [done|lia..].
  - intros -> j y val Hy Hv.
    destruct (Forall2_lookup_l _ _ _ _ _ Hf Hy) as (a & Ha & Hasg).
    assert (a = val) as -> by congruence.
    apply (in_cur_domain_assigned (σ y) val val); [done| |done].
    apply Hwf; [by eapply list_elem_of_lookup_2|done].
Qed.

(** X12.  For a constraint whose tuples all have the length of the scope,
    with every scope variable assigned: for a scope variable and its
    assigned value, [has_support] returns what [check] returns on the list
    of the assigned values. *)
Theorem has_support_when_assigned σ c vals (i : nat) (x : var_ref) (v : V) :
  built scope_sized c →
  (∀ y, y ∈ scope c → reachable_var (σ y)) →
  mapM (fun y => get_assigned_value (σ y)) (scope c) = Some vals →
  scope c !! i = Some x → vals !! i = Some v →
  has_support σ c x v = Returned (check c vals).
Proof.
  intros Hbuilt Hreach Hf%mapM_Some Hx Hv.
  assert (∀ y, y ∈ scope c → var_wf (σ y)) as Hwf
    by (intros; by apply reachable_var_wf, Hreach).
  pose proof (built_table_of _ c Hbuilt) as Hsized.
  destruct (built_invariants _ c Hbuilt) as [Hsound Hcomplete].
  pose proof (Forall2_length _ _ _ Hf) as Hlen.
  assert (check c vals = true ↔ vals ∈ sat_tuples c) as Hcheck
    by (unfold check; apply bool_decide_eq_true).
  unfold has_support. destruct (sup_tuples c !! (x, v)) as [l|] eqn:El.
  - destruct (has_support_scan_sized σ c l Hwf) as (b & Hb & Hiff).
    { intros t Hin. destruct (Hsound _ _ _ El Hin) as [Hsat _].
      rewrite (Hsized t Hsat). done. }
    rewrite Hb. f_equal.
    assert (b = true ↔ check c vals = true) as Hbc.
    { rewrite Hiff, Hcheck. split.
      - intros (t & Hin & Hs). destruct (Hsound _ _ _ El Hin) as [Hsat _].
        apply (supported_by_assigned σ c vals t Hwf Hf) in Hs; [by subst|].
        by apply Hsized.
      - intros Hsat. exists vals.
        destruct (Hcomplete vals i x v Hsat Hx Hv) as (l' & Hl' & Hin).
        split; [congruence|].
        by apply (supported_by_assigned σ c vals vals Hwf Hf). }
    destruct b, (check c vals); try done.
    + symmetry. by apply Hbc.
    + by apply Hbc.
  - f_equal. symmetry. apply not_true_is_false. rewrite Hcheck. intros Hsat.
    destruct (Hcomplete vals i x v Hsat Hx Hv) as (l' & Hl' & _). congruence.
Qed.
End AssignedScope.

(** The "not equal" table over the variables 0 and 1. *)
Lemma support_index_consistent_witness :
  let c := post (add_satisfying_tuples (Constraint_init "neq" [0; 1]) [[1; 2]; [2; 1]]) in
  (∃ l, sup_tuples c !! (1, 2) = Some l ∧ [1; 2] ∈ l) ↔
  [1; 2] ∈ sat_tuples c ∧ gives c [1; 2] 1 2.
Proof.
  intros c. apply (support_index_consistent c 1 2 [1; 2]).
  apply built_add; [apply built_init|repeat constructor].
Defined.

(** The same table, and a value list with three entries. *)
Lemma check_refuses_other_lengths_witness :
  let c := post (add_satisfying_tuples (Constraint_init "neq" [0; 1]) [[1; 2]; [2; 1]]) in
  check c [1; 2; 1] = false ∧ check c [1] = false.
Proof.
  intros c.
  assert (built scope_sized c) as Hb
    by (apply built_add; [apply built_init|repeat constructor]).
  split; apply (check_refuses_other_lengths c _ Hb); by vm_compute.
Defined.

(** The table built by one call and by two. *)
Lemma add_satisfying_tuples_app_witness :
  let c := Constraint_init "neq" [0; 1] in
  add_satisfying_tuples c ([[1; 2]] ++ [[2; 1]])
  = add_satisfying_tuples (post (add_satisfying_tuples c [[1; 2]])) [[2; 1]].
Proof. intros c. apply (add_satisfying_tuples_app c [[1; 2]] [[2; 1]]). reflexivity. Defined.

(** Scope [0, 1], both variables with domain [1, 2] and 2 pruned. *)
Lemma tuple_is_valid_cases_witness :
  let c := Constraint_init (V:=nat) "C" [0; 1] in
  let σ : var_store nat :=
    fun _ => foldl var_step (Variable_init "X" [1; 2]) [OpPruneValue 2] in
  tuple_is_valid σ c [1; 2] = Returned false ∧
  tuple_is_valid σ c [1; 1] = Returned true ∧
  tuple_is_valid σ c [1] = Raised IndexError.
Proof.
  intros c σ.
  assert (∀ x, x ∈ scope c → reachable_var (σ x)) as Hr
    by (intros x _; apply reachable_var_run).
  split; [|split].
  - apply (tuple_is_valid_cases σ c [1; 2] Hr). intros Hs.
    specialize (Hs 1 1 2 eq_refl eq_refl). by vm_compute in Hs.
  - apply (tuple_is_valid_cases σ c [1; 1] Hr).
    intros [|[|j]] y val; simpl; intros Hy Hv; simplify_eq; reflexivity.
  - apply (tuple_is_valid_cases σ c [1] Hr).
    intros [|[|j]] y val; simpl; intros Hy Hv; simplify_eq; reflexivity.
Defined.

(** The "not equal" table, variable 0 assigned 1 and variable 1 assigned 2. *)
Lemma has_support_when_assigned_witness :
  let c := post (add_satisfying_tuples (Constraint_init "neq" [0; 1]) [[1; 2]; [2; 1]]) in
  let σ : var_store nat :=
    fun y => post (assign (Variable_init "X" [1; 2]) (if decide (y = 0) then 1 else 2)) in
  has_support σ c 0 1 = Returned (check c [1; 2]) ∧ check c [1; 2] = true.
Proof.
  intros c σ. split; [|reflexivity].
  apply (has_support_when_assigned σ c [1; 2] 0 0 1).
  - apply built_add; [apply built_init|repeat constructor].
  - intros y _. apply (reachable_var_step _ (OpAssign _)), reachable_var_init.
  - reflexivity.
  - reflexivity.
  - reflexivity.
Defined.

(** ** CSP: variables, constraints and the index *)

Section CSPMore.
Context {V : Type} `{Countable V}.
Implicit Types (κ : cons_store V) (p : CSP) (c : cons_ref) (x y v : var_ref).

(** Induction over the calls that build a CSP, the constructor's calls of
    [add_var] included. *)
Lemma reachable_csp_calls κ (P : CSP → Prop) :
  (∀ nm, P (MkCSP nm [] [] ∅)) →
  (∀ p o, P p → P (post (add_var p o))) →
  (∀ p o, P p → P (post (add_constraint κ p o))) →
  ∀ p, reachable_csp κ p → P p.
Proof.
  intros H0 Hvar Hcons p Hreach. induction Hreach as [nm vs|p o _ IH].
  - unfold CSP_init. specialize (H0 nm). revert H0. generalize (MkCSP nm [] [] ∅).
    induction vs as [|o vs IHvs]; intros q Hq; simpl; [done|].
    by apply IHvs, Hvar.
  - destruct o; simpl; auto.
Qed.

Lemma reachable_csp_invariants κ p :
  reachable_csp κ p →
  csp_wf p ∧ NoDup (vars p) ∧
  ∀ c v, c ∈ cons p → v ∈ scope (κ c) → v ∈ vars p.
Proof.
  revert p. apply reachable_csp_calls.
  - intros nm. split; [|split]; simpl.
    + intros x. simpl. rewrite lookup_empty. split; [by intros ?%elem_of_nil|].
      by intros [? ?].
    + constructor.
    + intros c v Hc. by apply elem_of_nil in Hc.
  - intros p o (Hwf & Hnd & HK). split; [by apply add_var_wf|].
    destruct o as [x| |]; simpl; try done.
    case_decide as Hx; simpl; [done|]. split.
    + apply NoDup_app. split; [done|]. split; [|apply NoDup_singleton].
      intros y Hy ->%list_elem_of_singleton. apply Hx. by apply Hwf.
    + intros c v Hc Hv. apply elem_of_app. left. by eapply HK.
  - intros p o (Hwf & Hnd & HK). split; [by apply add_constraint_wf|].
    destruct o as [|c|]; try done.
    destruct (add_constraint_fields κ p c) as (_ & Hv & _ & Hcons & _).
    rewrite Hv. split; [done|].
    destruct (index_constraint c (scope (κ c)) (vars_to_cons p)).2 eqn:Hb.
    + destruct Hcons as [-> _]. intros c' v [Hc'| ->%list_elem_of_singleton]%elem_of_app Hin.
      * by eapply HK.
      * apply Hwf. by apply (proj1 (index_constraint_completed _ _ _) Hb).
    + destruct Hcons as [-> _]. done.
Qed.

(** X14.  In every CSP reached by calls of [add_var] and [add_constraint],
    rejected calls included, no variable is registered twice, and every
    constraint of the constraint list has its whole scope registered. *)
Theorem csp_registered_scopes κ p :
  reachable_csp κ p →
  NoDup (get_all_vars p) ∧
  ∀ c v, c ∈ get_all_cons p → v ∈ scope (κ c) → v ∈ get_all_vars p.
Proof. intros (_ & ? & ?)%reachable_csp_invariants. done. Qed.

(** X15.  In every reachable CSP, [get_cons_with_var(v)] returns a list for
    a registered variable and raises [KeyError] for any other. *)
Theorem get_cons_with_var_registered κ p v :
  reachable_csp κ p →
  (v ∈ get_all_vars p → ∃ l, get_cons_with_var p v = Returned l) ∧
  (v ∉ get_all_vars p → get_cons_with_var p v = Raised KeyError).
Proof.
  intros Hwf%reachable_csp_wf. unfold get_cons_with_var, get_all_vars. split.
  - intros [l Hl]%Hwf. rewrite Hl. by eexists.
  - intros Hnot. destruct (vars_to_cons p !! v) as [l|] eqn:E; [|done].
    exfalso. apply Hnot, Hwf. by eexists.
Qed.

(** X16.  In every reachable CSP: [add_var] of a variable that is not
    registered prints nothing, puts it at the end of [get_all_vars()] with
    an empty list of constraints, and changes neither the constraint list
    nor the constraints listed for the other variables; [add_var] of a
    registered variable prints the "already has it" line and changes
    nothing. *)
Theorem add_var_registers κ p x :
  reachable_csp κ p →
  let r := add_var p (PyVariable x) in
  (x ∉ get_all_vars p →
     out r = [] ∧ get_all_vars (post r) = get_all_vars p ++ [x] ∧
     get_all_cons (post r) = get_all_cons p ∧
     get_cons_with_var (post r) x = Returned [] ∧
     ∀ y, y ≠ x → get_cons_with_var (post r) y = get_cons_with_var p y) ∧
  (x ∈ get_all_vars p → fails_with r DuplicateVariable ∧ post r = p).
Proof.
  intros Hwf%reachable_csp_wf r. subst r. unfold get_all_vars, get_cons_with_var. simpl.
  destruct (decide (is_Some (vars_to_cons p !! x))) as [Hx|Hx]; simpl.
  - split; [|done]. intros Hnot. exfalso. by apply Hnot, Hwf.
  - split; [|intros Hin; exfalso; by apply Hx, Hwf].
    intros _. split; [done|]. split; [done|]. split; [done|].
    rewrite lookup_insert_eq. split; [done|].
    intros y Hy. by rewrite lookup_insert_ne.
Qed.

(** X18.  No call removes or reorders registered variables or constraints:
    after any calls, [get_all_vars()] and [get_all_cons()] start with what
    they were before. *)
Theorem csp_only_grows κ p (ops : list csp_op) :
  get_all_vars p `prefix_of` get_all_vars (foldl (csp_step κ) p ops) ∧
  get_all_cons p `prefix_of` get_all_cons (foldl (csp_step κ) p ops).
Proof.
  unfold get_all_vars, get_all_cons. revert p.
  induction ops as [|o ops IH]; intros p; simpl; [done|].
  destruct (IH (csp_step κ p o)) as [IHv IHc].
  assert (vars p `prefix_of` vars (csp_step κ p o) ∧
          cons p `prefix_of` cons (csp_step κ p o)) as [Hv Hc].
  { destruct o as [[x| |]|[|c|]]; cbn [csp_step]; try (simpl; done).
    - simpl. case_decide; simpl; [done|]. split; [by apply prefix_app_r|done].
    - destruct (add_constraint_fields κ p c) as (_ & -> & _ & Hcons & _).
      split; [done|].
      destruct (index_constraint c (scope (κ c)) (vars_to_cons p)).2;
        destruct Hcons as [-> _]; [by apply prefix_app_r|done]. }
  split; by etrans.
Qed.

Lemma add_vars_loop (vs : list pyobj) p x :
  csp_wf p →
  (x ∈ vars (foldl (fun p o => post (add_var p o)) p vs) ↔
   x ∈ vars p ∨ PyVariable x ∈ vs) ∧
  cons (foldl (fun p o => post (add_var p o)) p vs) = cons p ∧
  ((∀ y l, vars_to_cons p !! y = Some l → l = []) →
   ∀ y l, vars_to_cons (foldl (fun p o => post (add_var p o)) p vs) !! y = Some l →
          l = []).
Proof.
  revert p. induction vs as [|o vs IH]; intros p Hwf; simpl.
  { split; [|done]. split; [auto|]. intros [?|?%elem_of_nil]; done. }
  destruct (IH (post (add_var p o)) (add_var_wf p o Hwf)) as (IH1 & IH2 & IH3).
  rewrite IH1, IH2. clear IH1 IH2.
  destruct o as [z| |]; simpl in *.
  - destruct (decide (is_Some (vars_to_cons p !! z))) as [Hz|Hz]; simpl in *.
    + split; [|done]. rewrite elem_of_cons. split; [naive_solver|].
      intros [?|[[= ->]|?]]; auto. left. by apply Hwf.
    + split; [|split; [done|]].
      * rewrite elem_of_app, list_elem_of_singleton, elem_of_cons. naive_solver.
      * intros Hall. apply IH3. intros y l.
        destruct (decide (z = y)) as [->|Hne].
        -- rewrite lookup_insert_eq. congruence.
        -- rewrite lookup_insert_ne by done. apply Hall.
  - split; [|done]. rewrite elem_of_cons. naive_solver.
  - split; [|done]. rewrite elem_of_cons. naive_solver.
Qed.

(** X19.  [CSP(name, vars)] registers exactly the Variable objects of
    [vars], each once; the new CSP has no constraint, and
    [get_cons_with_var] returns the empty list for each of its variables. *)
Theorem CSP_init_registers (nm : string) (vs : list pyobj) x :
  (x ∈ get_all_vars (CSP_init nm vs) ↔ PyVariable x ∈ vs) ∧
  NoDup (get_all_vars (CSP_init nm vs)) ∧
  get_all_cons (CSP_init nm vs) = [] ∧
  (PyVariable x ∈ vs → get_cons_with_var (CSP_init nm vs) x = Returned []).
Proof.
  assert (csp_wf (MkCSP nm [] [] ∅)) as H0.
  { intros y. simpl. rewrite lookup_empty. split; [by intros ?%elem_of_nil|].
    by intros [? ?]. }
  destruct (add_vars_loop vs (MkCSP nm [] [] ∅) x H0) as (Hin & Hcons & Hnil).
  fold (CSP_init nm vs) in Hin, Hcons, Hnil. unfold get_all_vars, get_all_cons.
  simpl in *.
  assert (x ∈ vars (CSP_init nm vs) ↔ PyVariable x ∈ vs) as Hiff.
  { rewrite Hin. split; [|auto]. intros [?%elem_of_nil|?]; done. }
  assert (reachable_csp (fun _ => Constraint_init (V:=V) nm []) (CSP_init nm vs)) as Hreach
    by constructor.
  split; [done|]. split; [by apply (reachable_csp_invariants _ _ Hreach)|].
  split; [done|]. intros Hx. unfold get_cons_with_var.
  apply Hiff, (reachable_csp_wf _ _ Hreach) in Hx as [l Hl]. rewrite Hl. f_equal.
  apply (Hnil (fun y l0 => ltac:(by rewrite lookup_empty)) x l Hl).
Qed.
End CSPMore.

(** Variable 0 given twice to the constructor, then a constraint with scope
    [0, 1] (rejected) and one with scope [0] (accepted). *)
Lemma csp_registered_scopes_witness :
  let κ : cons_store nat :=
    fun c => if decide (c = 7) then Constraint_init "C" [0; 1] else Constraint_init "D" [0] in
  let p := foldl (csp_step κ) (CSP_init "P" [PyVariable 0; PyVariable 0])
             [OpAddConstraint (PyConstraint 7); OpAddConstraint (PyConstraint 8)] in
  get_all_vars p = [0] ∧ get_all_cons p = [8] ∧
  NoDup (get_all_vars p) ∧
  ∀ c v, c ∈ get_all_cons p → v ∈ scope (κ c) → v ∈ get_all_vars p.
Proof.
  intros κ p. split; [reflexivity|]. split; [reflexivity|].
  apply (csp_registered_scopes κ p).
  apply (reachable_csp_step κ _ (OpAddConstraint (PyConstraint 8))).
  apply (reachable_csp_step κ _ (OpAddConstraint (PyConstraint 7))).
  apply reachable_csp_init.
Defined.

(** A CSP with the variable 0 only, asked for 0 and for 5. *)
Lemma get_cons_with_var_registered_witness :
  let κ : cons_store nat := fun _ => Constraint_init "C" [0] in
  let p := CSP_init "P" [PyVariable 0] in
  (∃ l, get_cons_with_var p 0 = Returned l) ∧
  get_cons_with_var p 5 = Raised KeyError.
Proof.
  intros κ p. split.
  - apply (get_cons_with_var_registered κ p 0); [apply reachable_csp_init|compute_done].
  - apply (get_cons_with_var_registered κ p 5); [apply reachable_csp_init|compute_done].
Defined.

(** A CSP with the variable 0: [add_var] of 1, and of 0 again. *)
Lemma add_var_registers_witness :
  let κ : cons_store nat := fun _ => Constraint_init "C" [0] in
  let p := CSP_init "P" [PyVariable 0] in
  (get_all_vars (post (add_var p (PyVariable 1))) = [0; 1] ∧
   get_cons_with_var (post (add_var p (PyVariable 1))) 1 = Returned []) ∧
  (out (add_var p (PyVariable 0)) = [AlreadyHasVariable] ∧
   post (add_var p (PyVariable 0)) = p).
Proof.
  intros κ p. split.
  - destruct (add_var_registers κ p 1 (reachable_csp_init κ _ _)) as [Hnew _].
    destruct Hnew as (_ & Hv & _ & Hc & _); [compute_done|]. split; [exact Hv|exact Hc].
  - destruct (add_var_registers κ p 0 (reachable_csp_init κ _ _)) as [_ Hold].
    apply Hold. compute_done.
Defined.

(** Variables 0 and 1 registered, then a constraint with scope [0, 1]. *)
Lemma unrejected_index_agrees_witness :
  let κ : cons_store nat := fun _ => Constraint_init "C" [0; 1] in
  let p := csp_step κ (CSP_init "P" [PyVariable 0; PyVariable 1])
             (OpAddConstraint (PyConstraint 7)) in
  get_cons_with_var p 0 = Returned [7] ∧
  ∀ c, c ∈ [7] ↔ c ∈ cons_over κ p 0.
Proof.
  intros κ p. split; [reflexivity|].
  apply (unrejected_index_agrees κ p 0 [7]); [|reflexivity].
  apply reachable_unrejected_step; [apply reachable_unrejected_init|].
  intros (c & v & Heq & Hv & Hnot). injection Heq as <-. apply Hnot. exact Hv.
Defined.

Section AssignedView.
Context {V : Type} `{EqDecision V}.
Implicit Types (s : Var V) (a v : V).

(** X22.  In a reachable state of a variable assigned the value [a],
    whatever its flags are: [cur_domain()] is [[a]], [cur_domain_size()] is
    1, and [in_cur_domain(v)] is true for [v == a] and false for every other
    value. *)
Theorem assigned_view s a v :
  reachable_var s → get_assigned_value s = Some a →
  cur_domain s = Returned [a] ∧ cur_domain_size s = 1 ∧
  in_cur_domain s v = Returned (bool_decide (v = a)).
Proof.
  intros [_ Hasg]%reachable_var_wf Ha. unfold get_assigned_value in Ha.
  unfold cur_domain, cur_domain_size, in_cur_domain, is_assigned, get_assigned_value.
  rewrite Ha. split; [done|]. split; [done|].
  destruct (decide (v ∈ dom s)) as [|Hout]; [done|].
  rewrite bool_decide_eq_false_2; [done|]. intros ->. by apply Hout, Hasg.
Qed.
End AssignedView.

(** Domain [1, 2, 3], the value 2 assigned, then [prune_value(2)]. *)
Lemma assigned_view_witness :
  let s := foldl var_step (Variable_init "X" [1; 2; 3]) [OpAssign 2; OpPruneValue 2] in
  curdom s = [true; false; true] ∧
  cur_domain s = Returned [2] ∧ cur_domain_size s = 1 ∧
  in_cur_domain s 2 = Returned true ∧ in_cur_domain s 1 = Returned false.
Proof.
  intros s. split; [reflexivity|].
  destruct (assigned_view s 2 2 (reachable_var_run _ _ _) eq_refl) as (H1 & H2 & H3).
  destruct (assigned_view s 2 1 (reachable_var_run _ _ _) eq_refl) as (_ & _ & H4).
  split; [exact H1|]. split; [exact H2|]. split; [exact H3|exact H4].
Defined.

Section PartialAdd.
Context {V : Type} `{Countable V}.
Implicit Types (c : Constraint V) (t : list V).

(** X21.  A call of [add_satisfying_tuples] is not undone when it raises:
    if the first tuple longer than the scope is [t], the call raises
    [IndexError], the tuples before [t] and [t] itself are in the table
    afterwards, and the tuples after [t] are not looked at. *)
Theorem add_satisfying_tuples_raises_late c (l1 l2 : list (list V)) t :
  Forall (fun t' => length t' ≤ length (scope c)) l1 →
  length (scope c) < length t →
  let r := add_satisfying_tuples c (l1 ++ t :: l2) in
  ret r = Raised IndexError ∧
  post r = post (add_satisfying_tuples c (l1 ++ [t])) ∧
  sat_tuples (post r) = {[t]} ∪ list_to_set l1 ∪ sat_tuples c.
Proof.
  intros Hl1 Ht r. subst r. revert c Hl1 Ht.
  induction l1 as [|t' l1 IH]; intros c Hl1 Ht; simpl app.
  - rewrite !add_satisfying_tuples_cons, !decide_False by lia.
    destruct (add_satisfying_tuple_fields c t) as (_ & _ & Hsat & _ & Hret & _).
    rewrite Hret, decide_False by lia.
    split; [done|]. split; [done|]. rewrite Hsat. set_solver.
  - apply Forall_cons in Hl1 as [Ht' Hl1].
    rewrite !add_satisfying_tuples_cons, !decide_True by done.
    destruct (add_satisfying_tuple_fields c t') as (_ & Hsc & Hsat & _).
    destruct (IH (post (add_satisfying_tuple c t'))) as (IH1 & IH2 & IH3);
      [by rewrite Hsc..|].
    split; [done|]. split; [done|]. rewrite IH3, Hsat. set_solver.
Qed.
End PartialAdd.

(** Scope [0, 1] and the tuples (1, 2), (1, 2, 3), (2, 1). *)
Lemma add_satisfying_tuples_raises_late_witness :
  let c := Constraint_init (V:=nat) "C" [0; 1] in
  let r := add_satisfying_tuples c ([[1; 2]] ++ [1; 2; 3] :: [[2; 1]]) in
  ret r = Raised IndexError ∧
  check (post r) [1; 2] = true ∧ check (post r) [1; 2; 3] = true ∧
  check (post r) [2; 1] = false.
Proof.
  intros c r.
  destruct (add_satisfying_tuples_raises_late c [[1; 2]] [[2; 1]] [1; 2; 3])
    as (Hret & _ & _).
  - repeat constructor.
  - simpl. lia.
  - split; [exact Hret|]. split; [reflexivity|]. split; reflexivity.
Defined.

Section PruningAndSupport.
Context {V : Type} `{Countable V}.
Implicit Types (c : Constraint V) (t : list V) (σ : var_store V) (s : Var V).

Lemma prune_value_shrinks s (v val : V) :
  by_in_cur_domain (post (prune_value s v)) val → by_in_cur_domain s val.
Proof.
  unfold prune_value.
  destruct (store_flag_cases s v false) as [[_ ->]|(i & Hi & [[Hlt ->]|[_ ->]])];
    try done.
  unfold by_in_cur_domain, in_cur_domain, get_assigned_value, value_index, list_get.
  simpl. destruct (decide (val ∈ dom s)) as [Hin|]; [|done].
  destruct (assignedValue s); [done|].
  destruct (list_index val (dom s)) as [j|]; simpl; [|done].
  destruct (decide (i = j)) as [->|Hne].
  - by rewrite list_lookup_insert_eq.
  - by rewrite list_lookup_insert_ne.
Qed.

Lemma has_support_returns σ c (x : var_ref) (v : V) :
  built scope_covering c → (∀ y, y ∈ scope c → var_wf (σ y)) →
  ∃ b, has_support σ c x v = Returned b ∧
       (b = true ↔ spec_has_support by_in_cur_domain σ c x v).
Proof.
  intros Hbuilt Hwf.
  pose proof (built_table_of _ c Hbuilt) as Hsized.
  destruct (built_invariants _ c Hbuilt) as [Hsound Hcomplete].
  unfold has_support, spec_has_support.
  destruct (sup_tuples c !! (x, v)) as [l|] eqn:El.
  - destruct (has_support_scan_sized σ c l Hwf) as (b & Hb & Hiff).
    { intros t Hin. apply Hsized. by apply (Hsound _ _ _ El Hin). }
    exists b. split; [done|]. rewrite Hiff. split.
    + intros (t & Hin & Hs). exists t. by destruct (Hsound _ _ _ El Hin).
    + intros (t & Hin & (i & Hi1 & Hi2) & Hs). exists t. split; [|done].
      destruct (Hcomplete t i x v Hin Hi1 Hi2) as (l' & Hl' & ?). congruence.
  - exists false. split; [done|]. split; [done|].
    intros (t & Hin & (i & Hi1 & Hi2) & Hs).
    destruct (Hcomplete t i x v Hin Hi1 Hi2) as (l' & Hl' & ?). congruence.
Qed.

(** X23.  Pruning never creates support: for a constraint none of whose
    tuples is shorter than the scope and scope variables in reachable
    states, a pair that has support after [prune_value(v)] on some variable
    had support before it. *)
Theorem pruning_never_adds_support σ c (x y : var_ref) (v w : V) :
  built scope_covering c →
  (∀ z, z ∈ scope c → reachable_var (σ z)) →
  has_support (<[x := post (prune_value (σ x) v)]> σ) c y w = Returned true →
  has_support σ c y w = Returned true.
Proof.
  intros Hbuilt Hreach Hafter.
  set (σ' := <[x := post (prune_value (σ x) v)]> σ) in *.
  assert (∀ z, z ∈ scope c → var_wf (σ z)) as Hwf
    by (intros; by apply reachable_var_wf, Hreach).
  assert (∀ z, z ∈ scope c → var_wf (σ' z)) as Hwf'.
  { intros z Hz. subst σ'. destruct (decide (x = z)) as [->|Hne].
    - rewrite fn_lookup_insert. apply reachable_var_wf.
      apply (reachable_var_step _ (OpPruneValue v)). by apply Hreach.
    - rewrite fn_lookup_insert_ne by done. by apply Hwf. }
  destruct (has_support_returns σ c y w Hbuilt Hwf) as (b & Hb & Hiff).
  destruct (has_support_returns σ' c y w Hbuilt Hwf') as (b' & Hb' & Hiff').
  rewrite Hb' in Hafter. injection Hafter as ->.
  rewrite Hb. f_equal. apply Hiff.
  destruct (proj1 Hiff' eq_refl) as (t & Hin & Hg & Hs).
  exists t. split; [done|]. split; [done|].
  intros i z val Hz Ht. specialize (Hs i z val Hz Ht). subst σ'.
  destruct (decide (x = z)) as [->|Hne].
  - rewrite fn_lookup_insert in Hs. by eapply prune_value_shrinks.
  - by rewrite fn_lookup_insert_ne in Hs.
Qed.
End PruningAndSupport.

(** The "not equal" table over the variables 0 and 1 with domain [1, 2]:
    (0, 1) has support, and none once 2 is pruned from variable 1. *)
Lemma pruning_never_adds_support_witness :
  let c := post (add_satisfying_tuples (Constraint_init "neq" [0; 1]) [[1; 2]; [2; 1]]) in
  let σ : var_store nat := fun _ => Variable_init "X" [1; 2] in
  has_support (<[1 := post (prune_value (σ 1) 2)]> σ) c 0 1 = Returned false ∧
  has_support (<[1 := post (prune_value (σ 1) 1)]> σ) c 0 1 = Returned true ∧
  has_support σ c 0 1 = Returned true.
Proof.
  intros c σ. split; [reflexivity|]. split; [reflexivity|].
  apply (pruning_never_adds_support σ c 1 0 1 1).
  - apply built_add; [apply built_init|repeat constructor].
  - intros z _. apply reachable_var_init.
  - reflexivity.
Defined.
